(** * memchart: the snapshot engine of janimo/memchart (memchart.go)

    A shallow embedding of the smaps parser ([getsmaps]), the aggregation
    arithmetic ([memsizes]), the process prober ([snapshotPid]), the shared
    table [allpids] with its sampler ([snapshotPids]) and the exporters
    ([makeCSV], [printCSV], [makeJSON]), followed by the properties proved
    about them.

    Out of the model: the command-line options, [main], [work] and [dump],
    the HTTP handlers, the enumeration of /proc by [snapshotAll] (the
    sampler is studied on arbitrary lists of ids) and the lines written by
    [log].

    Conventions.
    - A Go [string] is a sequence of bytes: Rocq's [string] (a list of 8-bit
      [ascii]).
    - Go's [int] is the 64-bit two's-complement integer of an amd64/arm64
      build: a [Z] kept in range by [wrap].
    - A run-time panic is an explicit outcome, [Crash], of the [result] type.
    - Go maps are [gmap]s; an absent key reads as the zero value ([geti]). *)

From Stdlib Require Import ZArith Lia Ascii String List DecimalString DecimalPos.
From stdpp Require Import gmap strings list fin_maps.

Local Open Scope Z_scope.

(* ===================================================================== *)
(** ** Outcomes of Go code that may panic *)

Inductive panic : Type :=
| IndexOutOfRange      (* index out of range [i] with length n *)
| SliceBounds          (* slice bounds out of range *)
| NilMapWrite.         (* assignment to entry in nil map *)

Inductive result (A : Type) : Type :=
| Ret (a : A)
| Crash (p : panic).
Arguments Ret {A} a.
Arguments Crash {A} p.

Global Instance result_ret : MRet result := fun A a => Ret a.

Global Instance result_bind : MBind result := fun A B k r =>
  match r with
  | Ret a => k a
  | Crash p => Crash p
  end.

(** [xs[i]] on a slice: panics outside [0 .. len-1]. *)
Definition index {A} (xs : list A) (i : Z) : result A :=
  if i <? 0 then Crash IndexOutOfRange
  else match xs !! Z.to_nat i with
       | Some x => Ret x
       | None => Crash IndexOutOfRange
       end.

Definition len {A} (xs : list A) : Z := Z.of_nat (length xs).

(* ===================================================================== *)
(** ** Go's [int] *)

Definition intSize : Z := 64.
Definition maxInt : Z := 2 ^ 63 - 1.
Definition minInt : Z := - 2 ^ 63.

(** Two's-complement wrap-around of an exact result into [int]. *)
Definition wrap (z : Z) : Z := (z + 2 ^ 63) mod 2 ^ 64 - 2 ^ 63.

Definition int_add (a b : Z) : Z := wrap (a + b).
Definition int_neg (a : Z) : Z := wrap (- a).

Definition in_int (z : Z) : Prop := minInt <= z <= maxInt.

(* ===================================================================== *)
(** ** Bytes and strings *)

Definition byte (c : ascii) : Z := Z.of_N (N_of_ascii c).

Definition chr (n : Z) : ascii := ascii_of_N (Z.to_N n).

Definition nl : string := String (chr 10) "".

Fixpoint slen (s : string) : Z :=
  match s with
  | EmptyString => 0
  | String _ r => 1 + slen r
  end.

Fixpoint bytes (s : string) : list ascii :=
  match s with
  | EmptyString => []
  | String c r => c :: bytes r
  end.

Fixpoint of_bytes (l : list ascii) : string :=
  match l with
  | [] => EmptyString
  | c :: r => String c (of_bytes r)
  end.

Definition streq (a b : string) : bool := bool_decide (a = b).

(** [strings.Split(s, sep)] for a one-byte separator (both call sites pass
    one: a newline and a dash).  The result is never empty. *)
Fixpoint Split (s : string) (sep : ascii) : list string :=
  match s with
  | EmptyString => [EmptyString]
  | String c r =>
      if Ascii.eqb c sep then EmptyString :: Split r sep
      else match Split r sep with
           | x :: xs => String c x :: xs
           | [] => [String c EmptyString]
           end
  end.

(** [strings.Join(xs, sep)], used to build inputs and to state properties. *)
Fixpoint JoinWith (xs : list string) (sep : string) : string :=
  match xs with
  | [] => EmptyString
  | [x] => x
  | x :: rest => x +:+ sep +:+ JoinWith rest sep
  end.

(** [strings.Index(s, sub)] for a one-byte [sub]: the offset of its first
    occurrence, [-1] when there is none. *)
Fixpoint Index (s : string) (c : ascii) : Z :=
  match s with
  | EmptyString => -1
  | String d r =>
      if Ascii.eqb d c then 0
      else let i := Index r c in if i <? 0 then -1 else 1 + i
  end.

(** [strings.LastIndex(s, sub)] for a one-byte [sub] (not called by the
    program; used to state what the specification says of the name). *)
Fixpoint LastIndex (s : string) (c : ascii) : Z :=
  match s with
  | EmptyString => -1
  | String d r =>
      let i := LastIndex r c in
      if 0 <=? i then 1 + i
      else if Ascii.eqb d c then 0 else -1
  end.

(** The slice expression [s[lo:hi]]: it panics unless [0 <= lo <= hi <= len].
    (On a byte slice the upper limit is the capacity; the only upper bound
    the program passes is a result of [Index], which is below the length.) *)
Definition slice (s : string) (lo hi : Z) : result string :=
  if (0 <=? lo) && (lo <=? hi) && (hi <=? slen s)
  then Ret (String.substring (Z.to_nat lo) (Z.to_nat (hi - lo)) s)
  else Crash SliceBounds.
(** [strings.TrimRight(s, cutset)] for a one-byte cutset. *)
Fixpoint TrimRight (s : string) (c : ascii) : string :=
  match s with
  | EmptyString => EmptyString
  | String d r =>
      match TrimRight r c with
      | EmptyString => if Ascii.eqb d c then EmptyString else String d EmptyString
      | r' => String d r'
      end
  end.

(** *** [strings.Fields]

    [Fields] splits around runs of white space as [unicode.IsSpace] sees it.
    On a string with a byte above 0x7f Go decodes UTF-8 rune by rune; a
    decoding step consumes either one byte or a lead byte followed by
    continuation bytes (0x80..0xbf), so every byte outside 0x80..0xbf starts
    a rune.  The white-space runes are the six ASCII ones and U+0085, U+00A0,
    U+1680, U+2000..U+200A, U+2028, U+2029, U+202F, U+205F, U+3000, whose
    encodings all begin with such a byte: matching the encodings byte-wise,
    left to right, finds exactly the white-space runes Go finds. *)

Definition isASCIISpace (c : ascii) : bool :=
  let b := byte c in (b =? 9) || (b =? 10) || (b =? 11) || (b =? 12) || (b =? 13) || (b =? 32).

(** Number of bytes of the white-space rune at the head of [s]; 0 if the
    head of [s] is not white space. *)
Definition spaceWidth (s : string) : nat :=
  match s with
  | String c r =>
      if isASCIISpace c then 1%nat
      else match r with
           | String d r' =>
               if (byte c =? 194) && ((byte d =? 133) || (byte d =? 160)) then 2%nat
               else match r' with
                    | String e _ =>
                        if (byte c =? 225) && (byte d =? 154) && (byte e =? 128) then 3%nat
                        else if (byte c =? 226) && (byte d =? 128) &&
                                (((128 <=? byte e) && (byte e <=? 138)) ||
                                 (byte e =? 168) || (byte e =? 169) || (byte e =? 175))
                        then 3%nat
                        else if (byte c =? 226) && (byte d =? 129) && (byte e =? 159) then 3%nat
                        else if (byte c =? 227) && (byte d =? 128) && (byte e =? 128) then 3%nat
                        else 0%nat
                    | EmptyString => 0%nat
                    end
           | EmptyString => 0%nat
           end
  | EmptyString => 0%nat
  end.

Definition consField (w : string) (fs : list string) : list string :=
  match w with
  | EmptyString => fs
  | _ => w :: fs
  end.

(** [fieldsFrom s skip] returns the bytes of the field in progress at the
    head of [s] and the fields after it; [skip] counts the bytes of a
    white-space rune still to be passed over. *)
Fixpoint fieldsFrom (s : string) (skip : nat) : string * list string :=
  match s with
  | EmptyString => (EmptyString, [])
  | String c r =>
      match skip with
      | S k => let '(w, fs) := fieldsFrom r k in (EmptyString, consField w fs)
      | O =>
          match spaceWidth s with
          | O => let '(w, fs) := fieldsFrom r 0 in (String c w, fs)
          | S k => let '(w, fs) := fieldsFrom r k in (EmptyString, consField w fs)
          end
      end
  end.

Definition Fields (s : string) : list string :=
  let '(w, fs) := fieldsFrom s 0 in consField w fs.

(** A string made of white space only (the empty string included). *)
Fixpoint onlySpaceFrom (s : string) (skip : nat) : bool :=
  match s with
  | EmptyString => true
  | String c r =>
      match skip with
      | S k => onlySpaceFrom r k
      | O => match spaceWidth s with
             | O => false
             | S k => onlySpaceFrom r k
             end
      end
  end.

Definition onlySpace (s : string) : bool := onlySpaceFrom s 0.

(** *** [strings.ToLower]

    On an all-ASCII string Go maps 'A'..'Z' to 'a'..'z' byte by byte.  On any
    other string it applies [unicode.ToLower] rune by rune (replacing invalid
    UTF-8 by U+FFFD); that path depends on the Unicode case tables and is a
    parameter, [unicodeLower], of everything built on [ToLower]. *)

Definition isASCII (s : string) : bool := forallb (fun c => byte c <? 128) (bytes s).

Definition lowerByte (c : ascii) : ascii :=
  if (65 <=? byte c) && (byte c <=? 90) then chr (byte c + 32) else c.

Definition ToLower (unicodeLower : string -> string) (s : string) : string :=
  if isASCII s then of_bytes (lowerByte <$> bytes s) else unicodeLower s.

(** *** [strconv.Atoi] and [strconv.Itoa] *)

Inductive NumError : Type := ErrSyntax | ErrRange.

Definition maxUint64 : Z := 2 ^ 64 - 1.

Definition isDigit (c : ascii) : bool := (48 <=? byte c) && (byte c <=? 57).

(** The digit loop of [ParseUint(s, 10, 64)], [n] being the value so far. *)
Fixpoint parseUintLoop (s : string) (n : Z) : Z * option NumError :=
  match s with
  | EmptyString => (n, None)
  | String c r =>
      if isDigit c then
        if maxUint64 / 10 + 1 <=? n then (maxUint64, Some ErrRange)
        else
          let n10 := n * 10 in
          let n1 := (n10 + (byte c - 48)) mod 2 ^ 64 in
          if (n1 <? n10) || (maxUint64 <? n1) then (maxUint64, Some ErrRange)
          else parseUintLoop r n1
      else (0, Some ErrSyntax)
  end.

Definition ParseUint (s : string) : Z * option NumError :=
  match s with
  | EmptyString => (0, Some ErrSyntax)
  | _ => parseUintLoop s 0
  end.

(** [ParseInt(s, 10, 0)]. *)
Definition ParseInt (s : string) : Z * option NumError :=
  match s with
  | EmptyString => (0, Some ErrSyntax)
  | String c r =>
      let neg := Ascii.eqb c "-" in
      let digits := if Ascii.eqb c "+" || neg then r else s in
      match ParseUint digits with
      | (_, Some ErrSyntax) => (0, Some ErrSyntax)
      | (un, _) =>
          let cutoff := 2 ^ (intSize - 1) in
          if negb neg && (cutoff <=? un) then (cutoff - 1, Some ErrRange)
          else if neg && (cutoff <? un) then (- cutoff, Some ErrRange)
          else let n := wrap un in
               (if neg then int_neg n else n, None)
      end
  end.

(** The fast path of [Atoi]: digits only, no overflow possible. *)
Fixpoint atoiLoop (s : string) (n : Z) : option Z :=
  match s with
  | EmptyString => Some n
  | String ch r =>
      let d := (byte ch - 48) mod 256 in
      if 9 <? d then None else atoiLoop r (int_add (wrap (n * 10)) d)
  end.

Definition Atoi (s : string) : Z * option NumError :=
  let sLen := slen s in
  if (0 <? sLen) && (sLen <? 19) then
    match s with
    | EmptyString => (0, Some ErrSyntax)
    | String c r =>
        let signed := Ascii.eqb c "-" || Ascii.eqb c "+" in
        let digits := if signed then r else s in
        if signed && (slen digits <? 1) then (0, Some ErrSyntax)
        else match atoiLoop digits 0 with
             | None => (0, Some ErrSyntax)
             | Some n => (if Ascii.eqb c "-" then int_neg n else n, None)
             end
    end
  else ParseInt s.

(** [strconv.Itoa]: the decimal form, with a leading '-' below zero. *)
Definition Itoa (i : Z) : string := NilZero.string_of_int (Z.to_int i).

(* ===================================================================== *)
(** ** The program *)

(** Reading a Go map at a key it does not hold gives the zero value. *)
Definition geti (m : gmap string Z) (k : string) : Z := default 0 (m !! k).

(** [piddata]: data read from /proc/$PID. *)
Record piddata : Type := Piddata {
  cmdline : string;
  Name : string;
  RSS : Z;
  PSS : Z;
  USS : Z
}.

(** [isKernelProc] checks whether the given piddata is of a kernel process. *)
Definition isKernelProc (pd : piddata) : bool := slen (cmdline pd) =? 0.

(** Errors of [ioutil.ReadFile]; [os.IsNotExist] singles out the first. *)
Inductive error : Type := ErrNotExist | ErrPermission | ErrOther.

Definition IsNotExist (err : error) : bool :=
  match err with
  | ErrNotExist => true
  | _ => false
  end.

(** The process-information file system as the program observes it: what
    the [n]-th [ReadFile] call of the run returns for a path.  Processes
    come and go between any two reads. *)
Record procfs : Type := Procfs {
  readAt : nat -> string -> string + error
}.

(** The state the program threads: the number of reads issued so far and
    the global [allpids].  (The lines written by [log] are not modelled.) *)
Record world : Type := World {
  clock : nat;
  allpids : gmap string piddata
}.

Definition M (A : Type) : Type := world -> result (A * world).

Global Instance M_ret : MRet M := fun A a w => Ret (a, w).

Global Instance M_bind : MBind M := fun A B k m w =>
  match m w with
  | Ret (a, w') => k a w'
  | Crash p => Crash p
  end.

Definition lift {A} (r : result A) : M A := fun w =>
  match r with
  | Ret a => Ret (a, w)
  | Crash p => Crash p
  end.

(** [allpids[pid] = pd] and [delete(allpids, pid)]. *)
Definition upsert (pid : string) (pd : piddata) : M unit := fun w =>
  Ret (tt, World (clock w) (<[pid := pd]> (allpids w))).

Definition remove (pid : string) : M unit := fun w =>
  Ret (tt, World (clock w) (delete pid (allpids w))).

(** [snap]: the value handed to [json.MarshalIndent] by [makeJSON]; the
    unexported [cmdline] field is not marshalled. *)
Record snap : Type := Snap {
  Time : string;
  Pids : gmap string piddata
}.

(** [pmaps]: the representation of all mappings belonging to a PID, keyed
    on start address. *)
Abbreviation pmaps := (gmap string (gmap string Z)).

Section Memchart.

(** [unicode.ToLower] applied rune-wise, for labels that are not ASCII. *)
Variable unicodeLower : string -> string.

(** The body of the loop of [getsmaps], on a non-empty [line]; the state is
    the pair of [pm] and [start].  In [pm[start][n], _ = strconv.Atoi(f[1])]
    the right-hand side, with its [f[1]], is evaluated before the store into
    [pm[start]], which panics when no header has made that inner map. *)
Definition scanLine (line : string) (st : pmaps * string) : result (pmaps * string) :=
  let '(pm, start) := st in
  let f := Fields line in
  last_f ← index f (len f - 1);
  if negb (streq "kB" last_f) then
    f0 ← index f 0;
    start' ← index (Split f0 "-") 0;
    Ret (<[start' := ∅]> pm, start')
  else
    f0 ← index f 0;
    let n := ToLower unicodeLower (TrimRight f0 ":") in
    f1 ← index f 1;
    let '(v, _) := Atoi f1 in
    match pm !! start with
    | None => Crash NilMapWrite
    | Some m => Ret (<[start := <[n := v]> m]> pm, start)
    end.

(** The loop of [getsmaps] over the remaining lines, with its [break]. *)
Fixpoint scan (lines : list string) (st : pmaps * string) : result (pmaps * string) :=
  match lines with
  | [] => Ret st
  | line :: rest =>
      if slen line =? 0 then Ret st
      else st' ← scanLine line st; scan rest st'
  end.

(** [getsmaps] extracts the individual map entries from a smaps-formatted
    string. *)
Definition getsmaps (smaps : string) : result pmaps :=
  let pm : pmaps := ∅ in
  let lines := Split smaps (chr 10) in
  let start := "" in
  '(pm', _) ← scan lines (pm, start);
  Ret pm'.

(** The loop of [memsizes] over the inner maps in the order visited. *)
Definition addSizes (acc : Z * Z * Z) (m : gmap string Z) : Z * Z * Z :=
  let '(rss, pss, uss) := acc in
  (int_add rss (geti m "rss"),
   int_add pss (geti m "pss"),
   int_add uss (int_add (geti m "private_clean") (geti m "private_dirty"))).

Definition sumSizes (ms : list (gmap string Z)) : Z * Z * Z :=
  fold_left addSizes ms (0, 0, 0).

(** [memsizes].  Go visits a map in an unspecified order; [map_to_list]
    fixes one, and [sumSizes_perm] below shows the choice is immaterial. *)
Definition memsizes (smaps : string) : result (Z * Z * Z) :=
  pm ← getsmaps smaps;
  Ret (sumSizes ((map_to_list pm).*2)).

Variable fs : procfs.

(** [ioutil.ReadFile]. *)
Definition ReadFile (path : string) : M (string + error) := fun w =>
  Ret (readAt fs (clock w) path, World (S (clock w)) (allpids w)).

(** [snapshotPid] reads raw data from the /proc files corresponding to pid.
    [inr err] stands for the return [(nil, err)]. *)
Definition snapshotPid (pid : string) : M (piddata + error) :=
  let pidpath := "/proc/" +:+ pid +:+ "/" in
  r ← ReadFile (pidpath +:+ "cmdline");
  match r with
  | inr err => mret (inr err)
  | inl cmdline =>
      r ← ReadFile (pidpath +:+ "smaps");
      match r with
      | inr err => mret (inr err)
      | inl smaps =>
          r ← ReadFile (pidpath +:+ "stat");
          match r with
          | inr err => mret (inr err)
          | inl stat =>
              let i := Index stat "(" in
              let j := Index stat ")" in
              name ← lift (slice stat (i + 1) j);
              '(rss, pss, uss) ← lift (memsizes smaps);
              mret (inl (Piddata cmdline name rss pss uss))
          end
      end
  end.

(** The body of the loop of [snapshotPids]. *)
Definition snapshotOne (pid : string) : M unit :=
  r ← snapshotPid pid;
  match r with
  | inl pd => if negb (isKernelProc pd) then upsert pid pd else mret tt
  | inr err => if IsNotExist err then remove pid else mret tt
  end.

Fixpoint snapshotPids (pids : list string) : M unit :=
  match pids with
  | [] => mret tt
  | pid :: rest => snapshotOne pid ;; snapshotPids rest
  end.

(** *** Exporters *)

(** [d[c] = v] on a slice. *)
Definition setIndex {A} (d : list A) (c : nat) (v : A) : result (list A) :=
  if decide (c < length d)%nat then Ret (<[c := v]> d) else Crash IndexOutOfRange.

Definition csvRow (pid : string) (entry : piddata) : list string :=
  <[4%nat := Itoa (PSS entry)]>
    (<[3%nat := Itoa (USS entry)]>
       (<[2%nat := Itoa (RSS entry)]>
          (<[1%nat := Name entry]>
             (<[0%nat := pid]> (replicate 5 ""))))).

(** The loop of [makeCSV] over the entries of [allpids] in the order the
    [range] statement visits them. *)
Fixpoint makeCSVLoop (visit : list (string * piddata)) (d : list (list string)) (c : nat)
  : result (list (list string)) :=
  match visit with
  | [] => Ret d
  | (pid, entry) :: rest =>
      d' ← setIndex d c (csvRow pid entry);
      makeCSVLoop rest d' (S c)
  end.

(** [makeCSV] returns a tabular format of the measurements suitable for CSV
    output.  [visit] is the order in which [range allpids] yields the
    entries (see [visits]). *)
Definition makeCSV (tbl : gmap string piddata) (visit : list (string * piddata))
  : result (list (list string)) :=
  let d := replicate (size tbl) [] in
  makeCSVLoop visit d 0.

(** A [range] over a map yields every entry once, in no specified order. *)
Definition visits (tbl : gmap string piddata) (visit : list (string * piddata)) : Prop :=
  visit ≡ₚ map_to_list tbl.

(** [encoding/csv]: a field is quoted when it holds a comma, a quote, a
    carriage return or a newline, starts with white space, or is [\.]. *)
Definition quote : ascii := chr 34.

Definition fieldNeedsQuotes (field : string) : bool :=
  match field with
  | EmptyString => false
  | _ =>
      streq field (String (chr 92) ".")
      || existsb (fun c => (byte c =? 10) || (byte c =? 13) || (byte c =? 34) || (byte c =? 44))
                 (bytes field)
      || negb (Nat.eqb (spaceWidth field) 0)
  end.

Fixpoint csvEscape (field : string) : string :=
  match field with
  | EmptyString => EmptyString
  | String c r =>
      if byte c =? 34 then String quote (String quote (csvEscape r))
      else String c (csvEscape r)
  end.

Definition csvField (field : string) : string :=
  if fieldNeedsQuotes field
  then String quote (csvEscape field +:+ String quote "")
  else field.

(** [csv.Writer.Write] of one record, and [WriteAll]. *)
Definition csvWrite (record : list string) : string :=
  JoinWith (csvField <$> record) "," +:+ nl.

Definition csvWriteAll (records : list (list string)) : string :=
  String.concat "" (csvWrite <$> records).

(** [printCSV]: the bytes written to [w]. *)
Definition printCSV (tbl : gmap string piddata) (visit : list (string * piddata))
  : result string :=
  d ← makeCSV tbl visit;
  Ret (("pid,name,rss,uss,pss" +:+ nl) +:+ csvWriteAll d).

(** [makeJSON]: the snapshot marshalled, [timestamp] being the formatted
    [time.Now()]. *)
Definition makeJSON (timestamp : string) (tbl : gmap string piddata) : snap :=
  Snap timestamp tbl.

(* ===================================================================== *)
(** ** What the specification says, in its own words *)

(** A mapping block: the header line of one mapping and the counter lines
    that follow it, up to the next header or the end of the input. *)
Record block : Type := Block {
  header : string;
  counterLines : list string
}.

Definition blockLines (b : block) : list string := header b :: counterLines b.

Definition textLines (bs : list block) : list string := concat (blockLines <$> bs).

(** A line is a header if its last white-space separated field is not the
    unit suffix [kB]; a counter line reads [label: value kB]. *)
Definition isHeaderLine (line : string) : bool :=
  match last (Fields line) with
  | Some x => negb (streq "kB" x)
  | None => false
  end.

Definition isCounterLine (line : string) : bool :=
  match last (Fields line) with
  | Some x => streq "kB" x && (2 <=? len (Fields line))
  | None => false
  end.

Definition wfBlock (b : block) : Prop :=
  isHeaderLine (header b) = true /\
  Forall (fun l => isCounterLine l = true) (counterLines b).

(** [smaps] is the text made of the blocks [bs], one line each, with or
    without a final newline. *)
Definition wellFormed (smaps : string) (bs : list block) : Prop :=
  (Split smaps (chr 10) = textLines bs ++ [""] \/ Split smaps (chr 10) = textLines bs) /\
  Forall wfBlock bs.

Definition field (line : string) (i : nat) : string := default "" (Fields line !! i).

(** The starting address of a block: the text before the first dash. *)
Definition startOf (b : block) : string :=
  default "" (Split (field (header b) 0) "-" !! 0%nat).

(** The label of a counter line, lowercased and without its colon, and its
    value ([0] when it does not parse). *)
Definition labelOf (line : string) : string :=
  ToLower unicodeLower (TrimRight (field line 0) ":").

Definition valueOf (line : string) : Z := fst (Atoi (field line 1)).

(** The counter [n] of a block: the value stored last under that name,
    [0] when the block has no such counter. *)
Definition counter (n : string) (b : block) : Z :=
  fold_left (fun acc l => if streq (labelOf l) n then valueOf l else acc)
            (counterLines b) 0.

Definition sumOver (f : block -> Z) (bs : list block) : Z :=
  foldr Z.add 0 (f <$> bs).

(** The three sums of the specification, over all blocks. *)
Definition rssSum (bs : list block) : Z := sumOver (counter "rss") bs.
Definition pssSum (bs : list block) : Z := sumOver (counter "pss") bs.
Definition ussSum (bs : list block) : Z :=
  sumOver (fun b => counter "private_clean" b + counter "private_dirty" b) bs.

(** The lines [getsmaps] looks at: those before the first empty line. *)
Fixpoint scannedLines (lines : list string) : list string :=
  match lines with
  | [] => []
  | l :: rest => if slen l =? 0 then [] else l :: scannedLines rest
  end.

(** A decimal integer: an optional sign and one or more digits. *)
Definition isNumeric (s : string) : bool :=
  match s with
  | EmptyString => false
  | String c r =>
      let digits := if Ascii.eqb c "-" || Ascii.eqb c "+" then r else s in
      negb (slen digits =? 0) && forallb isDigit (bytes digits)
  end.

(** The number a string of digits denotes, after the digits denoting [n]. *)
Fixpoint digitsValue (s : string) (n : Z) : Z :=
  match s with
  | EmptyString => n
  | String c r => digitsValue r (n * 10 + (byte c - 48))
  end.

Definition decimalValue (s : string) : Z :=
  match s with
  | EmptyString => 0
  | String c r =>
      if Ascii.eqb c "-" then - digitsValue r 0
      else if Ascii.eqb c "+" then digitsValue r 0
      else digitsValue s 0
  end.

(** The name as the specification words it: strictly between the first
    opening and the last closing parenthesis of the status line. *)
Definition nameFirstToLast (stat : string) : string :=
  let i := Index stat "(" in
  let j := LastIndex stat ")" in
  String.substring (Z.to_nat (i + 1)) (Z.to_nat (j - (i + 1))) stat.

Definition contains (s : string) (c : ascii) : bool := 0 <=? Index s c.

(** No stored record has empty command-line bytes. *)
Definition noKernelRecord (tbl : gmap string piddata) : Prop :=
  forall pid pd, tbl !! pid = Some pd -> cmdline pd <> "".

(** The states the table goes through: [main] starts from an empty table,
    and every iteration of the loop of [snapshotPids], in whatever call of
    [work], handles one id. *)
Inductive reachable : world -> Prop :=
| reach_init : reachable (World 0 ∅)
| reach_step w pid w' :
    reachable w -> snapshotOne pid w = Ret (tt, w') -> reachable w'.

(** The tables a reader running beside the sampler may see during one
    call of [snapshotPids]: [allpids] is not guarded, so the reader may run
    between any two iterations of the loop. *)
Inductive observable : world -> list string -> gmap string piddata -> Prop :=
| obs_here w pids : observable w pids (allpids w)
| obs_later w pid rest w' tbl :
    snapshotOne pid w = Ret (tt, w') ->
    observable w' rest tbl ->
    observable w (pid :: rest) tbl.

(** *** Inputs used in the examples *)

Definition catBlock : list string :=
  [ "08048000-08049000 r-xp ... /bin/cat";
    "Rss: 4 kB";
    "Pss: 2 kB";
    "Private_Clean: 0 kB";
    "Private_Dirty: 4 kB" ].

Definition oneCatBlock : string := JoinWith catBlock nl +:+ nl.

Definition twoCatBlocks : string := JoinWith (catBlock ++ catBlock) nl +:+ nl.

Definition heapBlock : list string :=
  [ "0804a000-0806b000 rw-p 00000000 00:00 0 [heap]";
    "Rss: 12 kB";
    "Pss: 12 kB";
    "Private_Clean: 0 kB";
    "Private_Dirty: 12 kB" ].

Definition catAndHeap : string := JoinWith (catBlock ++ heapBlock) nl +:+ nl.

Definition catAndHeapBlocks : list block :=
  [ Block "08048000-08049000 r-xp ... /bin/cat" (tail catBlock);
    Block "0804a000-0806b000 rw-p 00000000 00:00 0 [heap]" (tail heapBlock) ].

(** A second mapping that starts at the address of [catBlock]. *)
Definition catAgain : list string :=
  [ "08048000-0804c000 r--p 00000000 03:00 8312 /bin/cat";
    "Rss: 16 kB";
    "Pss: 16 kB";
    "Private_Clean: 16 kB";
    "Private_Dirty: 0 kB" ].

Definition sameStart : string := JoinWith (catBlock ++ catAgain) nl +:+ nl.

Definition sameStartBlocks : list block :=
  [ Block "08048000-08049000 r-xp ... /bin/cat" (tail catBlock);
    Block "08048000-0804c000 r--p 00000000 03:00 8312 /bin/cat" (tail catAgain) ].

(** Stands for [unicode.ToLower] in the examples: their labels are ASCII,
    on which it is never called. *)
Definition asciiOnly (s : string) : string := s.

(** Two mappings with an empty line between them. *)
Definition gapText : string := JoinWith (catBlock ++ "" :: heapBlock) nl +:+ nl.

(** A counter whose value is not a number, and one whose digits overflow
    before the bad byte is reached. *)
Definition naLine : string := "Rss: n/a kB".

Definition overflowText : string :=
  JoinWith [ "08048000-08049000 r-xp ... /bin/cat";
             "Rss: 99999999999999999999x kB" ] nl +:+ nl.

(** A process-information file system that never changes: process 1 is
    [init], process 2 a kernel thread, process 7 has a closing parenthesis in
    its name, the status line of process 8 has one before the opening
    parenthesis, the maps of process 9 may not be read, and nothing else
    exists. *)
Definition fsExample : procfs :=
  Procfs (fun _ path =>
    if streq path "/proc/1/cmdline" then inl "/sbin/init"
    else if streq path "/proc/1/smaps" then inl oneCatBlock
    else if streq path "/proc/1/stat" then inl "1 (init) S 0 1 1"
    else if streq path "/proc/2/cmdline" then inl ""
    else if streq path "/proc/2/smaps" then inl ""
    else if streq path "/proc/2/stat" then inl "2 (kthreadd) S 0 0 0"
    else if streq path "/proc/7/cmdline" then inl "sh"
    else if streq path "/proc/7/smaps" then inl catAndHeap
    else if streq path "/proc/7/stat" then inl "7 (a)b) S 1 7 7"
    else if streq path "/proc/8/cmdline" then inl "x"
    else if streq path "/proc/8/smaps" then inl ""
    else if streq path "/proc/8/stat" then inl "8 )x( S 1 8 8"
    else if streq path "/proc/9/cmdline" then inl "sshd"
    else if streq path "/proc/9/smaps" then inr ErrPermission
    else inr ErrNotExist).

Definition initRecord : piddata := Piddata "/sbin/init" "init" 4 2 4.

Definition shRecord : piddata := Piddata "sh" "a" 16 14 16.

(** A table that still holds the records of two processes probed before. *)
Definition staleWorld : world :=
  World 0 (<["404" := Piddata "cat" "cat" 4 2 4]> {[ "9" := Piddata "sshd" "sshd" 8 8 8 ]}).

Definition twoRecords : gmap string piddata :=
  <["7" := shRecord]> {[ "1" := initRecord ]}.

(* ===================================================================== *)
(** ** Auxiliary definitions of the proofs *)

(** The exact sums of the counters of a list of inner maps. *)
Definition sumOf (n : string) (ms : list (gmap string Z)) : Z :=
  foldr Z.add 0 ((fun m => geti m n) <$> ms).

Definition startOfLine (line : string) : string :=
  default "" (Split (field line 0) "-" !! 0%nat).

(** The inner map a block leaves in [pm]. *)
Definition storeLine (m : gmap string Z) (l : string) : gmap string Z :=
  <[labelOf l := valueOf l]> m.

Definition countersOf (b : block) : gmap string Z :=
  fold_left storeLine (counterLines b) ∅.

Definition storeBlock (pm : pmaps) (b : block) : pmaps :=
  <[startOf b := countersOf b]> pm.

Definition entryOf (b : block) : string * gmap string Z := (startOf b, countersOf b).

(** Lines on which the scan returns: a header first, then headers and
    counter lines with a value field. *)
Definition parsable (lines : list string) : Prop :=
  match lines with
  | [] => True
  | l :: rest =>
      isHeaderLine l = true /\
      Forall (fun l => isHeaderLine l = true \/ isCounterLine l = true) rest
  end.

Definition parseFailure (v : Z) (e : NumError) : Prop :=
  match e with
  | ErrSyntax => v = 0
  | ErrRange => v = maxInt \/ v = minInt
  end.

(** The path [snapshotPid] reads for a file of a process. *)
Definition procPath (pid file : string) : string :=
  ("/proc/" +:+ pid +:+ "/") +:+ file.

(** The row of a process, column by column. *)
Definition rowOf (p : string * piddata) : list string :=
  [p.1; Name p.2; Itoa (RSS p.2); Itoa (USS p.2); Itoa (PSS p.2)].

(* ===================================================================== *)
(** ** Further definitions *)

(** The nearest [int] to an exact value, and the error [strconv] reports
    when the exact value is not an [int]. *)
Definition clampInt (z : Z) : Z :=
  if z <? minInt then minInt else if maxInt <? z then maxInt else z.

Definition rangeError (z : Z) : option NumError :=
  if (z <? minInt) || (maxInt <? z) then Some ErrRange else None.

(** The last block of [bs] that starts at the address [k]. *)
Definition lastBlockAt (k : string) (bs : list block) : option block :=
  last (filter (fun b => startOf b = k) bs).

(** The blocks of [bs] that no later block of the same start address
    follows. *)
Fixpoint lastBlocks (bs : list block) : list block :=
  match bs with
  | [] => []
  | b :: rest =>
      if bool_decide (startOf b ∈ startOf <$> rest) then lastBlocks rest
      else b :: lastBlocks rest
  end.

(** What one iteration of [snapshotPids] does to the table, given what the
    probe returned. *)
Definition tableAfter (r : piddata + error) (pid : string) (tbl : gmap string piddata)
  : gmap string piddata :=
  match r with
  | inl pd => if negb (isKernelProc pd) then <[pid := pd]> tbl else tbl
  | inr err => if IsNotExist err then delete pid tbl else tbl
  end.

(** A process-information file system that does not change over time. *)
Definition stable (pfs : procfs) : Prop :=
  forall n m path, readAt pfs n path = readAt pfs m path.

(** What [tableAfter] leaves at the id it handles, given what was there. *)
Definition settleAt (r : piddata + error) (old : option piddata) : option piddata :=
  match r with
  | inl pd => if negb (isKernelProc pd) then Some pd else old
  | inr err => if IsNotExist err then None else old
  end.

(** The table needs no change for the id [k], whatever world it is probed
    in. *)
Definition settled (k : string) (tbl : gmap string piddata) : Prop :=
  forall v r v1, snapshotPid k v = Ret (r, v1) -> settleAt r (tbl !! k) = tbl !! k.

(** *** The callers: [snapshotAll], [work] and the loop of [main] *)

(** The listing of /proc as the program observes it: what [os.Open] and
    [Readdir(0)] give at the time of the [n]-th read, the names of the
    entries or the error that makes [snapshotAll] call [log.Fatal]. *)
Record procdir : Type := Procdir {
  listAt : nat -> list string + error
}.

(** The loop of [snapshotAll]: [name[0]] panics on an empty name. *)
Fixpoint snapshotAllLoop (entries : list string) (pids : list string)
  : result (list string) :=
  match entries with
  | [] => Ret pids
  | name :: rest =>
      c ← index (bytes name) 0;
      if (48 <=? byte c) && (byte c <=? 57)
      then snapshotAllLoop rest (pids ++ [name])
      else snapshotAllLoop rest pids
  end.

(** [snapshotAll]; [None] stands for the exit of the program through
    [log.Fatal]. *)
Definition snapshotAll (dir : procdir) : M (option (list string)) := fun w =>
  match listAt dir (clock w) with
  | inr _ => Ret (None, w)
  | inl entries => pids ← snapshotAllLoop entries []; Ret (Some pids, w)
  end.

(** [dump(DumpCSV)], that is [printCSV(os.Stdout)]: the value is the text
    written; [visit] gives the order in which the [range] of [makeCSV] goes
    over a table. *)
Definition dumpCSV (visit : gmap string piddata -> list (string * piddata))
  : M (option string) := fun w =>
  out ← printCSV (allpids w) (visit (allpids w));
  Ret (Some out, w).

(** [work]: the value is what it writes to the standard output, [None]
    when the program exits in [snapshotAll]. *)
Definition work (dir : procdir) (verbose : bool)
    (visit : gmap string piddata -> list (string * piddata))
    (pids : list string) : M (option string) :=
  r ← (if len pids =? 0 then snapshotAll dir else mret (Some pids));
  match r with
  | None => mret None
  | Some pids =>
      snapshotPids pids ;;
      if verbose then dumpCSV visit else mret (Some "")
  end.

(** [n] rounds of the loop of [main] ([for { work(pids); time.Sleep(...) }]),
    with what they write. *)
Fixpoint cycles (n : nat) (dir : procdir) (verbose : bool)
    (visit : gmap string piddata -> list (string * piddata))
    (pids : list string) : M (option string) :=
  match n with
  | O => mret (Some "")
  | S n' =>
      r ← work dir verbose visit pids;
      match r with
      | None => mret None
      | Some out =>
          r' ← cycles n' dir verbose visit pids;
          mret (match r' with Some out' => Some (out +:+ out') | None => None end)
      end
  end.

(** The names [snapshotAll] keeps. *)
Definition startsWithDigit (name : string) : bool :=
  match name with
  | String c _ => isDigit c
  | EmptyString => false
  end.

(** A directory with the entries of a small /proc. *)
Definition dirExample : procdir :=
  Procdir (fun _ => inl ["1"; "self"; "2"; "cpuinfo"; "7"; "1abc"]).

(** A counter name as the parser stores it: no upper-case ASCII letter and
    no colon at its end. *)
Definition isUpper (c : ascii) : bool := (65 <=? byte c) && (byte c <=? 90).

Definition normalLabel (n : string) : bool :=
  forallb (fun c => negb (isUpper c)) (bytes n) &&
  match last (bytes n) with
  | Some c => negb (Ascii.eqb c ":")
  | None => true
  end.

(** Unfolds the bounds of [int] to literals, for [lia]. *)
Ltac int_consts :=
  unfold in_int, minInt, maxInt, wrap, maxUint64, intSize in *;
  change (2 ^ 64) with 18446744073709551616 in *;
  change (2 ^ 63) with 9223372036854775808 in *.

(* ===================================================================== *)
(** ** Arithmetic of [int] *)

Lemma wrap_id z : in_int z -> wrap z = z.
Proof. int_consts. intros H. rewrite Z.mod_small; lia. Qed.

Lemma wrap_add_l a b : wrap (wrap a + b) = wrap (a + b).
Proof.
  unfold wrap. set (h := 2 ^ 63). set (m := 2 ^ 64).
  replace ((a + h) mod m - h + b + h) with ((a + h) mod m + b) by ring.
  replace (a + b + h) with (a + h + b) by ring.
  by rewrite Zplus_mod_idemp_l.
Qed.

Lemma wrap_add_r a b : wrap (a + wrap b) = wrap (a + b).
Proof. rewrite (Z.add_comm a), wrap_add_l. f_equal. lia. Qed.

Lemma wrap_in_int z : in_int (wrap z).
Proof.
  int_consts.
  pose proof (Z.mod_pos_bound (z + 9223372036854775808) 18446744073709551616 ltac:(lia)).
  lia.
Qed.

Lemma sumSizes_from ms a b c :
  fold_left addSizes ms (wrap a, wrap b, wrap c) =
  (wrap (a + sumOf "rss" ms),
   wrap (b + sumOf "pss" ms),
   wrap (c + (sumOf "private_clean" ms + sumOf "private_dirty" ms))).
Proof.
  revert a b c. induction ms as [|m ms IH]; intros a b c; simpl.
  - unfold sumOf; simpl. by rewrite !Z.add_0_r.
  - unfold int_add. rewrite !wrap_add_l, wrap_add_r, IH.
    unfold sumOf. rewrite !fmap_cons. cbn [foldr].
    f_equal; [f_equal|]; (f_equal; lia).
Qed.

Lemma sumSizes_closed ms :
  sumSizes ms =
  (wrap (sumOf "rss" ms), wrap (sumOf "pss" ms),
   wrap (sumOf "private_clean" ms + sumOf "private_dirty" ms)).
Proof.
  unfold sumSizes. change (0, 0, 0) with (wrap 0, wrap 0, wrap 0).
  by rewrite sumSizes_from.
Qed.

Lemma sumOf_perm n ms ms' : ms ≡ₚ ms' -> sumOf n ms = sumOf n ms'.
Proof.
  unfold sumOf. induction 1; rewrite ?fmap_cons; cbn [foldr]; lia.
Qed.

(** The order in which the [range] of [memsizes] visits the map does not
    matter. *)
Lemma sumSizes_perm ms ms' : ms ≡ₚ ms' -> sumSizes ms = sumSizes ms'.
Proof.
  intros H. rewrite !sumSizes_closed.
  by rewrite !(sumOf_perm _ _ _ H).
Qed.

(** Whatever order the [range] of [memsizes] takes over [pm], the sums are
    those computed along [map_to_list]. *)
Lemma sumSizes_any_visit (pm : gmap string (gmap string Z)) visit :
  visit ≡ₚ map_to_list pm -> sumSizes visit.*2 = sumSizes (map_to_list pm).*2.
Proof. intros H. apply sumSizes_perm. by rewrite H. Qed.

(* ===================================================================== *)
(** ** Strings and slices *)

Lemma slen_nonneg s : 0 <= slen s.
Proof. induction s; simpl; lia. Qed.

Lemma slen_zero s : slen s = 0 <-> s = "".
Proof.
  destruct s; simpl; [done|].
  pose proof (slen_nonneg s). split; [lia | discriminate].
Qed.

Lemma slen_eqb_false s : s <> "" -> (slen s =? 0) = false.
Proof. intros H. apply Z.eqb_neq. by rewrite slen_zero. Qed.

Lemma index_lookup {A} (xs : list A) (i : nat) x :
  xs !! i = Some x -> index xs (Z.of_nat i) = Ret x.
Proof.
  intros H. unfold index.
  destruct (Z.ltb_spec (Z.of_nat i) 0); [lia|].
  by rewrite Nat2Z.id, H.
Qed.

Lemma index_last {A} (xs : list A) x :
  last xs = Some x -> index xs (len xs - 1) = Ret x.
Proof.
  intros H. rewrite last_lookup in H.
  destruct xs as [|y ys]; [done|].
  unfold len. replace (Z.of_nat (length (y :: ys)) - 1)
    with (Z.of_nat (pred (length (y :: ys)))) by (simpl; lia).
  by apply index_lookup.
Qed.

Lemma index_0 {A} (x : A) xs : index (x :: xs) 0 = Ret x.
Proof. reflexivity. Qed.

Lemma index_1 {A} (x y : A) xs : index (x :: y :: xs) 1 = Ret y.
Proof. reflexivity. Qed.

Lemma index_nil_crash {A} i : index (@nil A) i = Crash IndexOutOfRange.
Proof. unfold index. by destruct (i <? 0). Qed.

Lemma Split_nonempty s sep : exists x xs, Split s sep = x :: xs.
Proof.
  induction s as [|c r IH]; simpl; [eauto|].
  destruct (Ascii.eqb c sep); [eauto|].
  destruct IH as (x & xs & ->). eauto.
Qed.

Lemma Fields_empty : Fields "" = [].
Proof. reflexivity. Qed.

Lemma streq_true a b : streq a b = true <-> a = b.
Proof. unfold streq. apply bool_decide_eq_true. Qed.

Lemma streq_false a b : streq a b = false <-> a <> b.
Proof. unfold streq. apply bool_decide_eq_false. Qed.

(* ===================================================================== *)
(** ** One step of the parser *)

Lemma isHeaderLine_nonempty l : isHeaderLine l = true -> l <> "".
Proof. intros H ->. discriminate H. Qed.

Lemma isCounterLine_nonempty l : isCounterLine l = true -> l <> "".
Proof. intros H ->. discriminate H. Qed.

Lemma scanLine_header l pm start :
  isHeaderLine l = true ->
  scanLine l (pm, start) = Ret (<[startOfLine l := ∅]> pm, startOfLine l).
Proof.
  unfold isHeaderLine, scanLine, startOfLine, field. intros H.
  destruct (last (Fields l)) as [x|] eqn:Hlast; [|done].
  rewrite (index_last _ _ Hlast). simpl. rewrite H.
  destruct (Fields l) as [|f0 f]; [done|].
  rewrite index_0. simpl.
  destruct (Split_nonempty f0 "-") as (y & ys & ->).
  by rewrite index_0.
Qed.

Lemma scanLine_counter l pm start m :
  isCounterLine l = true ->
  pm !! start = Some m ->
  scanLine l (pm, start) = Ret (<[start := <[labelOf l := valueOf l]> m]> pm, start).
Proof.
  unfold isCounterLine, scanLine, labelOf, valueOf, field. intros H Hm.
  destruct (last (Fields l)) as [x|] eqn:Hlast; [|done].
  apply andb_prop in H as [Hx Hlen].
  rewrite (index_last _ _ Hlast). simpl. rewrite Hx. simpl.
  destruct (Fields l) as [|f0 [|f1 f]]; [done| |].
  { unfold len in Hlen. simpl in Hlen. done. }
  rewrite index_0. simpl.
  destruct (Atoi f1) as [v e]. by rewrite Hm.
Qed.

Lemma scan_cons l rest st :
  l <> "" -> scan (l :: rest) st = scanLine l st ≫= scan rest.
Proof. intros H. simpl. by rewrite (slen_eqb_false _ H). Qed.

Lemma scan_empty_line rest st : scan ("" :: rest) st = Ret st.
Proof. reflexivity. Qed.

Lemma bind_Ret {A B} (a : A) (k : A -> result B) : (Ret a ≫= k) = k a.
Proof. reflexivity. Qed.

Lemma scan_counterLines cs : forall rest pm start m,
  Forall (fun l => isCounterLine l = true) cs ->
  scan (cs ++ rest) (<[start := m]> pm, start) =
  scan rest (<[start := fold_left storeLine cs m]> pm, start).
Proof.
  induction cs as [|c cs IH]; intros rest pm start m Hcs; [done|].
  apply Forall_cons in Hcs as [Hc Hcs].
  rewrite <- app_comm_cons, (scan_cons _ _ _ (isCounterLine_nonempty _ Hc)).
  rewrite (scanLine_counter c _ start m Hc) by apply lookup_insert_eq.
  rewrite bind_Ret, insert_insert_eq. by apply IH.
Qed.

Lemma scan_block b rest pm start :
  wfBlock b ->
  scan (blockLines b ++ rest) (pm, start) =
  scan rest (<[startOf b := countersOf b]> pm, startOf b).
Proof.
  intros [Hh Hcs]. unfold blockLines.
  rewrite <- app_comm_cons, (scan_cons _ _ _ (isHeaderLine_nonempty _ Hh)).
  rewrite (scanLine_header _ _ _ Hh), bind_Ret.
  change (startOfLine (header b)) with (startOf b).
  by rewrite scan_counterLines.
Qed.

Lemma scan_blocks bs : forall rest pm start,
  Forall wfBlock bs ->
  exists start',
    scan (textLines bs ++ rest) (pm, start) =
    scan rest (fold_left storeBlock bs pm, start').
Proof.
  induction bs as [|b bs IH]; intros rest pm start Hbs; [by exists start|].
  apply Forall_cons in Hbs as [Hb Hbs].
  change (textLines (b :: bs)) with (blockLines b ++ textLines bs).
  rewrite <- app_assoc, (scan_block b _ _ _ Hb).
  apply IH, Hbs.
Qed.

(* ===================================================================== *)
(** ** The parser and the aggregator on well-formed text *)

Lemma getsmaps_wellFormed smaps bs :
  wellFormed smaps bs ->
  getsmaps smaps = Ret (fold_left storeBlock bs ∅).
Proof.
  intros [Hsplit Hbs]. unfold getsmaps.
  destruct (scan_blocks bs [""] ∅ "" Hbs) as [s1 H1].
  destruct (scan_blocks bs [] ∅ "" Hbs) as [s2 H2].
  rewrite app_nil_r in H2.
  destruct Hsplit as [-> | ->].
  - by rewrite H1.
  - by rewrite H2.
Qed.

Lemma storeBlocks_list_to_map bs :
  NoDup (startOf <$> bs) ->
  fold_left storeBlock bs ∅ = list_to_map (entryOf <$> bs).
Proof.
  induction bs as [|b bs IH] using rev_ind; intros Hnd; [done|].
  rewrite fmap_app in Hnd. apply NoDup_app in Hnd as (Hnd & Hfresh & _).
  rewrite fold_left_app, fmap_app. cbn [fold_left fmap list_fmap].
  change (entryOf b) with (startOf b, countersOf b).
  rewrite list_to_map_snoc.
  - unfold storeBlock at 1. by rewrite IH.
  - rewrite <- list_fmap_compose. intros Hin.
    apply (Hfresh (startOf b)); [exact Hin | apply list_elem_of_singleton; done].
Qed.

Lemma storeBlocks_to_list bs :
  NoDup (startOf <$> bs) ->
  (map_to_list (fold_left storeBlock bs ∅)).*2 ≡ₚ countersOf <$> bs.
Proof.
  intros Hnd. rewrite (storeBlocks_list_to_map _ Hnd).
  rewrite map_to_list_to_map.
  - by rewrite <- list_fmap_compose.
  - by rewrite <- list_fmap_compose.
Qed.

Lemma geti_storeLines n cs : forall m,
  geti (fold_left storeLine cs m) n =
  fold_left (fun acc l => if streq (labelOf l) n then valueOf l else acc) cs (geti m n).
Proof.
  induction cs as [|c cs IH]; intros m; [done|].
  simpl. rewrite IH. f_equal. unfold storeLine, geti.
  destruct (streq (labelOf c) n) eqn:E.
  - apply streq_true in E as ->. by rewrite lookup_insert_eq.
  - apply streq_false in E. by rewrite lookup_insert_ne.
Qed.

Lemma geti_countersOf n b : geti (countersOf b) n = counter n b.
Proof. unfold countersOf, counter. by rewrite geti_storeLines. Qed.

Lemma sumOf_countersOf n bs :
  sumOf n (countersOf <$> bs) = sumOver (counter n) bs.
Proof.
  unfold sumOf, sumOver. induction bs as [|b bs IH]; [done|].
  rewrite !fmap_cons. cbn [foldr]. by rewrite IH, geti_countersOf.
Qed.

Lemma sumOver_add f g bs :
  sumOver f bs + sumOver g bs = sumOver (fun b => f b + g b) bs.
Proof.
  unfold sumOver. induction bs as [|b bs IH]; [done|].
  rewrite !fmap_cons. cbn [foldr]. lia.
Qed.

Lemma sumOver_perm f bs bs' : bs ≡ₚ bs' -> sumOver f bs = sumOver f bs'.
Proof. unfold sumOver. induction 1; rewrite ?fmap_cons; cbn [foldr]; lia. Qed.

Lemma memsizes_wellFormed smaps bs :
  wellFormed smaps bs ->
  NoDup (startOf <$> bs) ->
  memsizes smaps = Ret (wrap (rssSum bs), wrap (pssSum bs), wrap (ussSum bs)).
Proof.
  intros Hwf Hnd. unfold memsizes.
  rewrite (getsmaps_wellFormed _ _ Hwf), bind_Ret.
  rewrite (sumSizes_perm _ _ (storeBlocks_to_list _ Hnd)), sumSizes_closed.
  rewrite !sumOf_countersOf, sumOver_add. done.
Qed.

Lemma counter_missing n b :
  Forall (fun l => labelOf l <> n) (counterLines b) -> counter n b = 0.
Proof.
  unfold counter. induction 1 as [|l ls Hl _ IH]; [done|].
  simpl. apply streq_false in Hl. by rewrite Hl.
Qed.

Lemma wellFormed_perm_NoDup bs bs' :
  bs' ≡ₚ bs -> NoDup (startOf <$> bs) -> NoDup (startOf <$> bs').
Proof. intros Hp Hnd. by rewrite Hp. Qed.

(** C1 (amended).  For every well-formed mapping-accounting text whose
    blocks start at pairwise distinct addresses, [memsizes] returns (it does
    not panic) the triple of the sums, over all blocks, of the [rss]
    counters, of the [pss] counters and of [private_clean + private_dirty],
    each reduced to the 64-bit [int] by wrap-around, hence the exact sums
    when these fit an [int]; a counter missing from a block counts for 0;
    and the result is the same for any text made of the same blocks in
    another order. *)
Theorem memsizes_sums_over_blocks smaps bs :
  wellFormed smaps bs ->
  NoDup (startOf <$> bs) ->
  memsizes smaps = Ret (wrap (rssSum bs), wrap (pssSum bs), wrap (ussSum bs)) /\
  (in_int (rssSum bs) -> in_int (pssSum bs) -> in_int (ussSum bs) ->
   memsizes smaps = Ret (rssSum bs, pssSum bs, ussSum bs)) /\
  (forall n b, Forall (fun l => labelOf l <> n) (counterLines b) -> counter n b = 0) /\
  (forall smaps' bs',
     wellFormed smaps' bs' -> bs' ≡ₚ bs -> memsizes smaps' = memsizes smaps).
Proof.
  intros Hwf Hnd.
  pose proof (memsizes_wellFormed _ _ Hwf Hnd) as Hsum.
  repeat split.
  - exact Hsum.
  - intros Hr Hp Hu. by rewrite Hsum, !wrap_id.
  - apply counter_missing.
  - intros smaps' bs' Hwf' Hperm.
    rewrite Hsum, (memsizes_wellFormed _ _ Hwf' (wellFormed_perm_NoDup _ _ Hperm Hnd)).
    unfold rssSum, pssSum, ussSum.
    by rewrite !(sumOver_perm _ _ _ Hperm).
Qed.

(** C2 (amended).  The text made of the [/bin/cat] block twice yields
    [(rss=4, pss=2, uss=4)], as one such block does: both blocks start at
    08048000, the key of the parser's map, so the second replaces the
    first. *)
Theorem memsizes_two_identical_blocks :
  getsmaps twoCatBlocks =
    Ret {[ "08048000" :=
             {[ "rss" := 4; "pss" := 2; "private_clean" := 0; "private_dirty" := 4 ]} ]} /\
  memsizes twoCatBlocks = Ret (4, 2, 4) /\
  memsizes oneCatBlock = Ret (4, 2, 4).
Proof. repeat split; vm_compute; reflexivity. Qed.

(* ===================================================================== *)
(** ** Lines: [Split] and [JoinWith] *)

Lemma append_cons c x y : String c x +:+ y = String c (x +:+ y).
Proof. reflexivity. Qed.

Lemma append_nil y : "" +:+ y = y.
Proof. reflexivity. Qed.

Lemma contains_cons d r c :
  contains (String d r) c = Ascii.eqb d c || contains r c.
Proof.
  unfold contains. simpl. destruct (Ascii.eqb d c); [done|]. simpl.
  destruct (Z.ltb_spec (Index r c) 0);
    destruct (Z.leb_spec 0 (Index r c)); try lia; try done.
Qed.

Lemma Split_without_sep x sep :
  contains x sep = false -> Split x sep = [x].
Proof.
  induction x as [|c x IH]; [done|].
  rewrite contains_cons. intros [Hc Hx]%orb_false_elim.
  simpl. by rewrite Hc, (IH Hx).
Qed.

Lemma Split_append_sep x r sep :
  contains x sep = false ->
  Split (x +:+ String sep r) sep = x :: Split r sep.
Proof.
  induction x as [|c x IH].
  - intros _. rewrite append_nil. simpl. by rewrite Ascii.eqb_refl.
  - rewrite contains_cons. intros [Hc Hx]%orb_false_elim.
    rewrite append_cons. simpl. by rewrite Hc, (IH Hx).
Qed.

Lemma Split_elements s sep :
  Forall (fun l => contains l sep = false) (Split s sep).
Proof.
  induction s as [|c s IH]; simpl.
  - by repeat constructor.
  - destruct (Ascii.eqb c sep) eqn:E.
    + by constructor.
    + destruct (Split s sep) as [|x xs].
      { constructor; [by rewrite contains_cons, E | constructor]. }
      apply Forall_cons in IH as [Hx Hxs]. constructor; [|done].
      by rewrite contains_cons, E, Hx.
Qed.

Lemma Split_JoinWith ls sep :
  ls <> [] ->
  Forall (fun l => contains l sep = false) ls ->
  Split (JoinWith ls (String sep "")) sep = ls.
Proof.
  induction ls as [|x ls IH]; [done|]. intros _ Hls.
  apply Forall_cons in Hls as [Hx Hls].
  destruct ls as [|y ls].
  - by apply Split_without_sep.
  - change (JoinWith (x :: y :: ls) (String sep ""))
      with (x +:+ String sep (JoinWith (y :: ls) (String sep ""))).
    rewrite (Split_append_sep _ _ _ Hx). f_equal. by apply IH.
Qed.

(** ** The scan and its [break] *)

Lemma scan_app pre rest st :
  Forall (fun l => l <> "") pre ->
  scan (pre ++ rest) st = scan pre st ≫= scan rest.
Proof.
  revert st. induction pre as [|l pre IH]; intros st Hpre.
  - simpl. by destruct st.
  - apply Forall_cons in Hpre as [Hl Hpre].
    rewrite <- app_comm_cons, !scan_cons by done.
    destruct (scanLine l st) as [st'|p]; [|done].
    rewrite !bind_Ret. by apply IH.
Qed.

Lemma bind_Ret_r {A} (r : result A) : (r ≫= Ret) = r.
Proof. by destruct r. Qed.

Lemma scan_until_empty pre post st :
  Forall (fun l => l <> "") pre ->
  scan (pre ++ "" :: post) st = scan pre st.
Proof.
  intros Hpre. rewrite (scan_app _ _ _ Hpre).
  destruct (scan pre st); done.
Qed.

Lemma scannedLines_app pre post :
  Forall (fun l => l <> "") pre ->
  scannedLines (pre ++ "" :: post) = pre.
Proof.
  induction 1 as [|l pre Hl _ IH]; [done|].
  simpl. by rewrite (slen_eqb_false _ Hl), IH.
Qed.

Lemma scan_scannedLines lines st :
  scan lines st = scan (scannedLines lines) st.
Proof.
  revert st. induction lines as [|l lines IH]; intros st; [done|].
  simpl. destruct (slen l =? 0) eqn:E; [done|].
  simpl. rewrite E. destruct (scanLine l st); [|done]. apply IH.
Qed.

(** C6.  Whenever the input holds an empty line, [getsmaps] stops at the
    first one: its outcome is that of scanning the lines [pre] before it,
    which is the outcome of [getsmaps] on the text made of [pre] alone;
    nothing after the empty line ([post]) takes part in it. *)
Theorem getsmaps_stops_at_first_empty_line smaps pre post :
  Split smaps (chr 10) = pre ++ "" :: post ->
  Forall (fun l => l <> "") pre ->
  getsmaps smaps = (scan pre (∅, "") ≫= fun st => Ret st.1) /\
  getsmaps smaps = getsmaps (JoinWith pre nl) /\
  (forall smaps' post',
     Split smaps' (chr 10) = pre ++ "" :: post' -> getsmaps smaps' = getsmaps smaps).
Proof.
  intros Hsplit Hpre.
  assert (H1 : forall s p, Split s (chr 10) = pre ++ "" :: p ->
                 getsmaps s = scan pre (∅, "") ≫= fun st => Ret st.1).
  { intros s p Hs. unfold getsmaps. rewrite Hs, (scan_until_empty _ _ _ Hpre).
    destruct (scan pre (∅, "")) as [[pm start]|]; done. }
  split; [by eapply H1|].
  split; [|intros s' p' Hs'; by rewrite (H1 _ _ Hs'), (H1 _ _ Hsplit)].
  rewrite (H1 _ _ Hsplit).
  destruct pre as [|l pre]; [done|].
  unfold getsmaps, nl. rewrite Split_JoinWith.
  - destruct (scan (l :: pre) (∅, "")) as [[pm start]|]; done.
  - done.
  - pose proof (Split_elements smaps (chr 10)) as Hel.
    rewrite Hsplit in Hel. by apply Forall_app in Hel as [Hel _].
Qed.

(* ===================================================================== *)
(** ** Where the parser panics *)

Lemma consField_nil w fds : consField w fds = [] <-> w = "" /\ fds = [].
Proof. destruct w; simpl; split; intros H; try done; by destruct H. Qed.

Lemma fieldsFrom_onlySpace s : forall k,
  onlySpaceFrom s k = true -> fieldsFrom s k = ("", []).
Proof.
  induction s as [|c r IH]; intros k H; [done|].
  cbn [onlySpaceFrom fieldsFrom] in *.
  destruct k as [|k].
  - destruct (spaceWidth (String c r)) as [|k']; [done|].
    by rewrite (IH _ H).
  - by rewrite (IH _ H).
Qed.

Lemma fieldsFrom_not_onlySpace s : forall k,
  onlySpaceFrom s k = false ->
  consField (fieldsFrom s k).1 (fieldsFrom s k).2 <> [].
Proof.
  induction s as [|c r IH]; intros k H; [done|].
  cbn [onlySpaceFrom fieldsFrom] in *.
  destruct k as [|k].
  - destruct (spaceWidth (String c r)) as [|k'].
    + destruct (fieldsFrom r 0) as [w fds]. done.
    + specialize (IH _ H). destruct (fieldsFrom r k') as [w fds]. exact IH.
  - specialize (IH _ H). destruct (fieldsFrom r k) as [w fds]. exact IH.
Qed.

(** A line has no field exactly when it is made of white space only. *)
Lemma Fields_nil_iff s : Fields s = [] <-> onlySpace s = true.
Proof.
  unfold Fields, onlySpace. split.
  - intros H. destruct (onlySpaceFrom s 0) eqn:E; [done|].
    pose proof (fieldsFrom_not_onlySpace s 0 E) as Hne.
    destruct (fieldsFrom s 0) as [w fds]. done.
  - intros H. by rewrite (fieldsFrom_onlySpace _ _ H).
Qed.

Lemma scanLine_no_field line st :
  Fields line = [] -> scanLine line st = Crash IndexOutOfRange.
Proof.
  intros H. unfold scanLine. destruct st as [pm start]. by rewrite H.
Qed.

Lemma last_is_Some {A} (x : A) xs : exists y, last (x :: xs) = Some y.
Proof.
  revert x. induction xs as [|z xs IH]; intros x; [by exists x|].
  destruct (IH z) as [y Hy]. exists y. exact Hy.
Qed.

Lemma line_classes line :
  Fields line <> [] ->
  isHeaderLine line = true \/
  isCounterLine line = true \/
  (last (Fields line) = Some "kB" /\ len (Fields line) = 1).
Proof.
  unfold isHeaderLine, isCounterLine. intros Hne.
  destruct (Fields line) as [|f0 f]; [done|].
  destruct (last_is_Some f0 f) as [x Hx]. rewrite Hx.
  destruct (streq "kB" x) eqn:E; [|by left]. right.
  apply streq_true in E as <-.
  destruct f as [|f1 f]; [by right|left].
  unfold len. simpl. apply Z.leb_le. lia.
Qed.

Lemma scanLine_bare_unit line st :
  last (Fields line) = Some "kB" -> len (Fields line) = 1 ->
  scanLine line st = Crash IndexOutOfRange.
Proof.
  intros Hlast Hlen. unfold scanLine. destruct st as [pm start].
  rewrite (index_last _ _ Hlast). simpl.
  destruct (Fields line) as [|f0 [|f1 f]]; try done.
  unfold len in Hlen. simpl in Hlen. lia.
Qed.

Lemma scanLine_counter_no_block line pm start :
  isCounterLine line = true -> pm !! start = None ->
  scanLine line (pm, start) = Crash NilMapWrite.
Proof.
  unfold isCounterLine, scanLine. intros H Hm.
  destruct (last (Fields line)) as [x|] eqn:Hlast; [|done].
  apply andb_prop in H as [Hx Hlen].
  rewrite (index_last _ _ Hlast). simpl. rewrite Hx. simpl.
  destruct (Fields line) as [|f0 [|f1 f]]; [done| |].
  { unfold len in Hlen. simpl in Hlen. done. }
  rewrite index_0. simpl. destruct (Atoi f1) as [v e]. by rewrite Hm.
Qed.

(** What a step that returns tells about its line and its state. *)
Lemma scanLine_Ret_inv line pm start st' :
  scanLine line (pm, start) = Ret st' ->
  isHeaderLine line = true \/
  (isCounterLine line = true /\ is_Some (pm !! start) /\ st'.2 = start).
Proof.
  intros H.
  destruct (Fields line) as [|f0 f] eqn:Hf.
  { by rewrite scanLine_no_field in H. }
  destruct (line_classes line) as [Hh | [Hc | [Hlast Hlen]]].
  - by rewrite Hf.
  - by left.
  - right. split; [done|].
    destruct (pm !! start) as [m|] eqn:Hm.
    + rewrite (scanLine_counter _ _ _ _ Hc Hm) in H.
      injection H as <-. by split; [eexists|].
    + by rewrite (scanLine_counter_no_block _ _ _ Hc Hm) in H.
  - by rewrite (scanLine_bare_unit _ _ Hlast Hlen) in H.
Qed.

Lemma isHeaderLine_fields l : isHeaderLine l = true -> Fields l <> [].
Proof. unfold isHeaderLine. by destruct (Fields l). Qed.

Lemma isCounterLine_fields l : isCounterLine l = true -> Fields l <> [].
Proof. unfold isCounterLine. by destruct (Fields l). Qed.

Lemma scan_Ret_lines lines : forall st st',
  scan lines st = Ret st' ->
  Forall (fun l => isHeaderLine l = true \/ isCounterLine l = true)
         (scannedLines lines).
Proof.
  induction lines as [|l lines IH]; intros [pm start] st' H; [constructor|].
  cbn [scannedLines]. destruct (slen l =? 0) eqn:E0; [constructor|].
  assert (Hl : l <> "") by (intros ->; done).
  rewrite (scan_cons _ _ _ Hl) in H.
  destruct (scanLine l (pm, start)) as [st1|] eqn:E; [|done].
  rewrite bind_Ret in H.
  constructor; [|by eapply IH].
  apply scanLine_Ret_inv in E as [?|[? _]]; auto.
Qed.

Lemma scan_Ret_first l lines st' :
  l <> "" ->
  scan (l :: lines) (∅, "") = Ret st' -> isHeaderLine l = true.
Proof.
  intros Hl H. rewrite (scan_cons _ _ _ Hl) in H.
  destruct (scanLine l (∅, "")) as [st1|] eqn:E; [|done].
  apply scanLine_Ret_inv in E as [?|(_ & [m Hm] & _)]; [done|].
  by rewrite lookup_empty in Hm.
Qed.

Lemma scannedLines_head lines l rest :
  scannedLines lines = l :: rest ->
  l <> "" /\ exists lines', lines = l :: lines'.
Proof.
  destruct lines as [|l0 lines]; [done|]. simpl.
  destruct (slen l0 =? 0) eqn:E; [done|].
  intros [= <- _]. split; [|by eexists].
  intros ->. done.
Qed.

Lemma scan_returns lines : forall pm start,
  is_Some (pm !! start) ->
  Forall (fun l => isHeaderLine l = true \/ isCounterLine l = true) lines ->
  exists st', scan lines (pm, start) = Ret st'.
Proof.
  induction lines as [|l lines IH]; intros pm start Hm Hls; [by eexists|].
  apply Forall_cons in Hls as [Hl Hls].
  assert (Hne : l <> "").
  { destruct Hl; [by apply isHeaderLine_nonempty | by apply isCounterLine_nonempty]. }
  rewrite (scan_cons _ _ _ Hne).
  destruct Hl as [Hh|Hc].
  - rewrite (scanLine_header _ _ _ Hh), bind_Ret.
    apply IH; [|done]. rewrite lookup_insert_eq. by eexists.
  - destruct Hm as [m Hm].
    rewrite (scanLine_counter _ _ _ _ Hc Hm), bind_Ret.
    apply IH; [|done]. rewrite lookup_insert_eq. by eexists.
Qed.

(** [getsmaps] returns exactly on the inputs whose scanned lines are
    [parsable]. *)
Lemma getsmaps_returns_iff smaps :
  (exists pm, getsmaps smaps = Ret pm) <->
  parsable (scannedLines (Split smaps (chr 10))).
Proof.
  unfold getsmaps. rewrite scan_scannedLines.
  destruct (scannedLines (Split smaps (chr 10))) as [|l rest] eqn:Hsc.
  - split; [done|]. intros _. by exists ∅.
  - destruct (scannedLines_head _ _ _ Hsc) as [Hl _]. split.
    + intros [pm H].
      destruct (scan (l :: rest) (∅, "")) as [[pm' s']|] eqn:E; [|done].
      split; [by eapply scan_Ret_first|].
      pose proof (scan_Ret_lines _ _ _ E) as Hall.
      assert (Hfix : scannedLines (l :: rest) = l :: rest).
      { rewrite <- Hsc. clear. induction (Split smaps (chr 10)) as [|x xs IH]; [done|].
        simpl. destruct (slen x =? 0) eqn:E; [done|]. simpl. by rewrite E, IH. }
      rewrite Hfix in Hall. by apply Forall_cons in Hall as [_ ?].
    + intros [Hh Hrest]. rewrite (scan_cons _ _ _ Hl).
      rewrite (scanLine_header _ _ _ Hh), bind_Ret.
      destruct (scan_returns rest (<[startOfLine l := ∅]> ∅) (startOfLine l)) as [[pm s'] ->];
        [rewrite lookup_insert_eq; by eexists | done |].
      by exists pm.
Qed.

(** C10.  [getsmaps] is not total.  On the one-blank input it panics; so
    does every step on a line of white space only, which has no field
    ([f[len(f)-1]] is out of range), and every step on a line ending in [kB]
    met before any header: with a value field it assigns into the inner map
    that was never made, without one [f[1]] is out of range.  Hence,
    whenever [getsmaps] returns, no line before the first empty line is
    blank and the first of them is a header line. *)
Theorem getsmaps_not_total :
  getsmaps " " = Crash IndexOutOfRange /\
  getsmaps "Rss: 4 kB" = Crash NilMapWrite /\
  (forall line st,
     onlySpace line = true ->
     Fields line = [] /\ scanLine line st = Crash IndexOutOfRange) /\
  (forall line,
     last (Fields line) = Some "kB" ->
     (len (Fields line) = 1 /\ scanLine line (∅, "") = Crash IndexOutOfRange) \/
     (isCounterLine line = true /\ scanLine line (∅, "") = Crash NilMapWrite)) /\
  (forall smaps pm,
     getsmaps smaps = Ret pm ->
     Forall (fun l => onlySpace l = false) (scannedLines (Split smaps (chr 10))) /\
     (forall l rest,
        scannedLines (Split smaps (chr 10)) = l :: rest -> isHeaderLine l = true)).
Proof.
  split; [vm_compute; reflexivity|].
  split; [vm_compute; reflexivity|].
  split.
  { intros line st H. apply Fields_nil_iff in H.
    split; [done | by apply scanLine_no_field]. }
  split.
  { intros line Hlast.
    assert (Hne : Fields line <> []) by (intros E; by rewrite E in Hlast).
    destruct (line_classes line Hne) as [Hh | [Hc | [_ Hlen]]].
    - unfold isHeaderLine in Hh. by rewrite Hlast in Hh.
    - right. split; [done|].
      apply scanLine_counter_no_block; [done | apply lookup_empty].
    - left. split; [done|]. by apply scanLine_bare_unit. }
  intros smaps pm H.
  assert (Hp : parsable (scannedLines (Split smaps (chr 10)))).
  { apply getsmaps_returns_iff. by exists pm. }
  split.
  - assert (Hall : Forall (fun l => isHeaderLine l = true \/ isCounterLine l = true)
                          (scannedLines (Split smaps (chr 10)))).
    { destruct (scannedLines (Split smaps (chr 10))); [constructor|].
      destruct Hp as [Hh Hrest]. constructor; auto. }
    eapply Forall_impl; [exact Hall|]. intros l Hl. simpl.
    destruct (onlySpace l) eqn:E; [|done].
    apply Fields_nil_iff in E.
    destruct Hl as [Hl|Hl];
      [apply isHeaderLine_fields in Hl | apply isCounterLine_fields in Hl]; done.
  - intros l rest Heq. rewrite Heq in Hp. by destruct Hp.
Qed.

(* ===================================================================== *)
(** ** [Atoi] on what is not a number *)

Lemma byte_range c : 0 <= byte c < 256.
Proof.
  unfold byte. pose proof (N_ascii_bounded c). lia.
Qed.

Lemma fast_digit_test c : (9 <? (byte c - 48) mod 256) = negb (isDigit c).
Proof.
  unfold isDigit. pose proof (byte_range c) as Hb.
  destruct (Z.leb_spec 48 (byte c)); simpl.
  - rewrite Z.mod_small by lia.
    destruct (Z.leb_spec (byte c) 57); simpl; [apply Z.ltb_ge | apply Z.ltb_lt]; lia.
  - apply Z.ltb_lt.
    replace (byte c - 48) with (byte c + 208 + (-1) * 256) by lia.
    rewrite Z.mod_add by lia. rewrite Z.mod_small; lia.
Qed.

Lemma atoiLoop_nondigit s : forall n,
  forallb isDigit (bytes s) = false -> atoiLoop s n = None.
Proof.
  induction s as [|c r IH]; intros n H; [done|].
  simpl in *. rewrite fast_digit_test.
  destruct (isDigit c); simpl in *; [by apply IH | done].
Qed.

Lemma parseUintLoop_nondigit s : forall n,
  forallb isDigit (bytes s) = false ->
  parseUintLoop s n = (0, Some ErrSyntax) \/
  parseUintLoop s n = (maxUint64, Some ErrRange).
Proof.
  induction s as [|c r IH]; intros n H; [done|].
  cbn [parseUintLoop bytes forallb] in *.
  destruct (isDigit c); simpl in H; [|by left].
  destruct (maxUint64 / 10 + 1 <=? n); [by right|].
  destruct (_ || _); [by right|]. by apply IH.
Qed.

Lemma ParseUint_nonnumeric s :
  (slen s =? 0) = true \/ forallb isDigit (bytes s) = false ->
  ParseUint s = (0, Some ErrSyntax) \/ ParseUint s = (maxUint64, Some ErrRange).
Proof.
  intros [H|H].
  - apply Z.eqb_eq, slen_zero in H as ->. by left.
  - destruct s as [|c r]; [by left|]. by apply parseUintLoop_nondigit.
Qed.

Lemma isNumeric_false_digits c r :
  isNumeric (String c r) = false ->
  let digits := if Ascii.eqb c "-" || Ascii.eqb c "+" then r else String c r in
  (slen digits =? 0) = true \/ forallb isDigit (bytes digits) = false.
Proof.
  unfold isNumeric. intros H. cbv zeta.
  apply andb_false_iff in H as [H|H]; [left | by right].
  by apply negb_false_iff in H.
Qed.

Lemma ParseInt_nonnumeric s :
  isNumeric s = false ->
  exists v e, ParseInt s = (v, Some e) /\ parseFailure v e.
Proof.
  destruct s as [|c r]; [by exists 0, ErrSyntax|].
  intros H. apply isNumeric_false_digits in H. cbv zeta in H.
  unfold ParseInt.
  destruct (Ascii.eqb c "-") eqn:Em; destruct (Ascii.eqb c "+") eqn:Ep;
    cbn [orb andb negb] in H |- *;
    (apply ParseUint_nonnumeric in H as [-> | ->];
     [by exists 0, ErrSyntax|]).
  - exists minInt, ErrRange. split; [reflexivity | by right].
  - exists minInt, ErrRange. split; [reflexivity | by right].
  - exists maxInt, ErrRange. split; [reflexivity | by left].
  - exists maxInt, ErrRange. split; [reflexivity | by left].
Qed.

Lemma Atoi_nonnumeric s :
  isNumeric s = false ->
  exists v e,
    Atoi s = (v, Some e) /\ parseFailure v e /\ (slen s < 19 -> e = ErrSyntax).
Proof.
  intros H. unfold Atoi.
  destruct ((0 <? slen s) && (slen s <? 19)) eqn:Efast.
  - exists 0, ErrSyntax.
    destruct s as [|c r]; [done|].
    apply isNumeric_false_digits in H. cbv zeta in H.
    set (signed := Ascii.eqb c "-" || Ascii.eqb c "+") in *.
    set (digits := if signed then r else String c r) in *.
    split; [|done].
    destruct H as [H|H].
    + destruct signed eqn:Es; simpl.
      * apply Z.eqb_eq in H. subst digits.
        destruct (Z.ltb_spec (slen r) 1); [done|lia].
      * subst digits. simpl in H. pose proof (slen_nonneg r).
        apply Z.eqb_eq in H. lia.
    + rewrite (atoiLoop_nondigit _ _ H). by destruct (signed && _).
  - destruct (ParseInt_nonnumeric s H) as (v & e & Hp & Hf).
    exists v, e. split; [done|]. split; [done|].
    intros Hshort.
    assert (Hs : s = "").
    { apply slen_zero. pose proof (slen_nonneg s).
      apply andb_false_iff in Efast as [E|E];
        [apply Z.ltb_ge in E | apply Z.ltb_ge in E]; lia. }
    subst s. by injection Hp as <- <-.
Qed.

(** *** [Atoi] on a number *)

Lemma isDigit_range c : isDigit c = true -> 0 <= byte c - 48 <= 9.
Proof. unfold isDigit. rewrite andb_true_iff, !Z.leb_le. lia. Qed.

Lemma digitsValue_ge s : forall n,
  forallb isDigit (bytes s) = true -> 0 <= n -> n <= digitsValue s n.
Proof.
  induction s as [|c r IH]; intros n H Hn; simpl in *; [lia|].
  apply andb_prop in H as [Hc Hr]. apply isDigit_range in Hc.
  specialize (IH (n * 10 + (byte c - 48)) Hr). lia.
Qed.

Lemma digitsValue_lt s : forall n,
  forallb isDigit (bytes s) = true -> 0 <= n ->
  digitsValue s n < (n + 1) * 10 ^ slen s.
Proof.
  induction s as [|c r IH]; intros n H Hn; simpl in *; [lia|].
  apply andb_prop in H as [Hc Hr]. apply isDigit_range in Hc.
  specialize (IH (n * 10 + (byte c - 48)) Hr ltac:(lia)).
  pose proof (slen_nonneg r).
  rewrite Z.pow_add_r by lia. change (10 ^ 1) with 10.
  assert (0 < 10 ^ slen r) by (apply Z.pow_pos_nonneg; lia). nia.
Qed.

Lemma atoiLoop_digits s : forall n,
  forallb isDigit (bytes s) = true -> 0 <= n -> digitsValue s n <= maxInt ->
  atoiLoop s n = Some (digitsValue s n).
Proof.
  induction s as [|c r IH]; intros n H Hn Hmax; simpl in *; [done|].
  apply andb_prop in H as [Hc Hr].
  rewrite fast_digit_test, Hc. simpl.
  apply isDigit_range in Hc.
  rewrite Z.mod_small by lia.
  pose proof (digitsValue_ge r (n * 10 + (byte c - 48)) Hr ltac:(lia)) as Hge.
  unfold int_add. rewrite (wrap_id (n * 10)), wrap_id.
  - apply IH; [done | lia | done].
  - int_consts. lia.
  - int_consts. lia.
Qed.

(** A decimal integer of fewer than 19 bytes is read as the number it
    denotes. *)
Lemma Atoi_decimal s :
  isNumeric s = true -> slen s < 19 -> Atoi s = (decimalValue s, None).
Proof.
  intros Hnum Hshort. destruct s as [|c r]; [done|].
  unfold isNumeric in Hnum. apply andb_prop in Hnum as [Hne Hdig].
  apply negb_true_iff, Z.eqb_neq in Hne.
  unfold Atoi, decimalValue. cbn [slen] in *. pose proof (slen_nonneg r).
  replace ((0 <? 1 + slen r) && (1 + slen r <? 19)) with true
    by (symmetry; rewrite andb_true_iff, !Z.ltb_lt; lia).
  assert (Hpow : forall k, 0 <= k <= 18 -> 10 ^ k <= 10 ^ 18)
    by (intros k Hk; apply Z.pow_le_mono_r; lia).
  destruct (Ascii.eqb c "-") eqn:Em; [|destruct (Ascii.eqb c "+") eqn:Ep];
    cbn [orb andb] in *.
  - pose proof (digitsValue_lt r 0 Hdig ltac:(lia)) as Hlt.
    pose proof (digitsValue_ge r 0 Hdig ltac:(lia)) as Hge.
    pose proof (Hpow (slen r) ltac:(lia)).
    destruct (Z.ltb_spec (slen r) 1); [lia|].
    rewrite atoiLoop_digits by (try done; int_consts; lia).
    unfold int_neg. rewrite wrap_id by (int_consts; lia). done.
  - pose proof (digitsValue_lt r 0 Hdig ltac:(lia)) as Hlt.
    pose proof (Hpow (slen r) ltac:(lia)).
    destruct (Z.ltb_spec (slen r) 1); [lia|].
    rewrite atoiLoop_digits by (try done; int_consts; lia). done.
  - pose proof (digitsValue_lt (String c r) 0 Hdig ltac:(lia)) as Hlt.
    cbn [slen] in Hlt.
    pose proof (Hpow (1 + slen r) ltac:(lia)).
    rewrite atoiLoop_digits by (try done; int_consts; lia). done.
Qed.

(** C7 (amended).  For every counter line whose value field is not a
    decimal integer, [Atoi] fails and the parser stores, under the label of
    the line, the value [Atoi] returns with its error: [0] for a syntax
    error, which is the only failure of a field shorter than 19 bytes, and
    the largest or smallest [int] when the digits read before the first bad
    byte already overflow (a range error).  The step returns normally with
    the error dropped, and no other counter of the block, and no other
    block, is changed. *)
Theorem scanLine_malformed_value line pm start m :
  isCounterLine line = true ->
  pm !! start = Some m ->
  isNumeric (field line 1) = false ->
  exists v e,
    Atoi (field line 1) = (v, Some e) /\
    scanLine line (pm, start) = Ret (<[start := <[labelOf line := v]> m]> pm, start) /\
    (e = ErrSyntax -> v = 0) /\
    (e = ErrRange -> v = maxInt \/ v = minInt) /\
    (slen (field line 1) < 19 -> v = 0) /\
    (forall n, n <> labelOf line -> <[labelOf line := v]> m !! n = m !! n) /\
    (forall k, k <> start ->
       <[start := <[labelOf line := v]> m]> pm !! k = pm !! k).
Proof.
  intros Hc Hm Hnum.
  destruct (Atoi_nonnumeric _ Hnum) as (v & e & Ha & Hf & Hshort).
  exists v, e. split; [done|]. split.
  { rewrite (scanLine_counter _ _ _ _ Hc Hm). unfold valueOf. by rewrite Ha. }
  split; [by intros ->|]. split; [by intros ->|]. split.
  { intros Hs. by rewrite (Hshort Hs) in Hf. }
  split; intros x Hx; by rewrite lookup_insert_ne.
Qed.

(* ===================================================================== *)
(** ** The prober *)

Lemma slen_length s : slen s = Z.of_nat (String.length s).
Proof. induction s; simpl; lia. Qed.

Lemma slen_append x y : slen (x +:+ y) = slen x + slen y.
Proof.
  induction x as [|c x IH]; [by rewrite append_nil|].
  rewrite append_cons. simpl. lia.
Qed.

Lemma Index_bound s c : -1 <= Index s c.
Proof.
  induction s as [|d r IH]; simpl; [lia|].
  destruct (Ascii.eqb d c); [lia|].
  destruct (Z.ltb_spec (Index r c) 0); lia.
Qed.

Lemma contains_false_Index s c : contains s c = false <-> Index s c = -1.
Proof.
  unfold contains. pose proof (Index_bound s c).
  destruct (Z.leb_spec 0 (Index s c)); split; intros; try done; lia.
Qed.

Lemma Index_append x y c :
  contains x c = false ->
  Index (x +:+ y) c = if Index y c <? 0 then -1 else slen x + Index y c.
Proof.
  induction x as [|d x IH].
  - intros _. rewrite append_nil. simpl.
    pose proof (Index_bound y c).
    destruct (Z.ltb_spec (Index y c) 0); lia.
  - rewrite contains_cons. intros [Hd Hx]%orb_false_elim.
    rewrite append_cons. simpl. rewrite Hd, (IH Hx).
    pose proof (slen_nonneg x). pose proof (Index_bound y c).
    destruct (Z.ltb_spec (Index y c) 0); simpl; [done|].
    destruct (Z.ltb_spec (slen x + Index y c) 0); lia.
Qed.

Lemma Index_head c r : Index (String c r) c = 0.
Proof. simpl. by rewrite Ascii.eqb_refl. Qed.

Lemma substring_skip x y k :
  String.substring (String.length x) k (x +:+ y) = String.substring 0 k y.
Proof. induction x as [|c x IH]; [done|]. by rewrite append_cons. Qed.

Lemma substring_prefix x y :
  String.substring 0 (String.length x) (x +:+ y) = x.
Proof.
  induction x as [|c x IH]; [by destruct y|].
  rewrite append_cons. simpl. by rewrite IH.
Qed.

(** The status line [a(n)c] with no parenthesis in [a] and no closing one
    in [n]: the slice the prober takes is [n]. *)
Lemma name_slice a n c :
  contains a "(" = false -> contains a ")" = false -> contains n ")" = false ->
  let stat := a +:+ String "(" (n +:+ String ")" c) in
  slice stat (Index stat "(" + 1) (Index stat ")") = Ret n.
Proof.
  intros Ha1 Ha2 Hn stat. subst stat.
  rewrite (Index_append _ _ _ Ha1), Index_head.
  rewrite (Index_append _ _ _ Ha2).
  assert (Hi : Index (String "(" (n +:+ String ")" c)) ")" = 1 + slen n).
  { cbn [Index]. replace (Ascii.eqb "(" ")") with false by reflexivity.
    rewrite (Index_append _ _ _ Hn), Index_head. simpl.
    pose proof (slen_nonneg n).
    destruct (Z.ltb_spec (slen n + 0) 0); lia. }
  rewrite Hi. pose proof (slen_nonneg a). pose proof (slen_nonneg n).
  replace (0 <? 0) with false by reflexivity.
  destruct (Z.ltb_spec (1 + slen n) 0); [lia|].
  unfold slice. rewrite slen_append. cbn [slen]. rewrite slen_append. cbn [slen].
  pose proof (slen_nonneg c).
  replace ((0 <=? slen a + 0 + 1) && (slen a + 0 + 1 <=? slen a + (1 + slen n)) &&
           (slen a + (1 + slen n) <=? slen a + (1 + (slen n + (1 + slen c)))))
    with true.
  2:{ symmetry. rewrite !andb_true_iff, !Z.leb_le. lia. }
  f_equal.
  replace (Z.to_nat (slen a + 0 + 1)) with (String.length (a +:+ "(")).
  2:{ apply Nat2Z.inj. rewrite <- slen_length, slen_append. simpl. lia. }
  replace (Z.to_nat (slen a + (1 + slen n) - (slen a + 0 + 1))) with (String.length n).
  2:{ apply Nat2Z.inj. rewrite <- slen_length. lia. }
  replace (a +:+ String "(" (n +:+ String ")" c))
    with ((a +:+ "(") +:+ (n +:+ String ")" c)).
  2:{ clear. induction a as [|d a IH]; [done|]. rewrite !append_cons. by rewrite IH. }
  by rewrite substring_skip, substring_prefix.
Qed.

Lemma snapshotPid_reads pid w cmd sm st :
  readAt fs (clock w) (procPath pid "cmdline") = inl cmd ->
  readAt fs (S (clock w)) (procPath pid "smaps") = inl sm ->
  readAt fs (S (S (clock w))) (procPath pid "stat") = inl st ->
  snapshotPid pid w =
    (name ← slice st (Index st "(" + 1) (Index st ")");
     sizes ← memsizes sm;
     Ret (inl (Piddata cmd name sizes.1.1 sizes.1.2 sizes.2),
          World (S (S (S (clock w)))) (allpids w))).
Proof.
  unfold procPath. intros H1 H2 H3.
  unfold snapshotPid, ReadFile, mbind, M_bind. simpl. rewrite H1. simpl.
  rewrite H2. simpl. rewrite H3. unfold lift. simpl.
  destruct (slice st _ _) as [name|]; [|done]. simpl.
  destruct (memsizes sm) as [[[rss pss] uss]|]; done.
Qed.

(** The prober leaves the table alone. *)
Lemma snapshotPid_table pid w r w1 :
  snapshotPid pid w = Ret (r, w1) -> allpids w1 = allpids w.
Proof.
  unfold snapshotPid, ReadFile, mbind, M_bind, mret, M_ret, lift. simpl.
  destruct (readAt fs (clock w) _) as [cmd|e1]; simpl; [|by intros [= _ <-]].
  destruct (readAt fs (S (clock w)) _) as [sm|e2]; simpl; [|by intros [= _ <-]].
  destruct (readAt fs (S (S (clock w))) _) as [st|e3]; simpl; [|by intros [= _ <-]].
  destruct (slice st _ _) as [name|]; [|done]. simpl.
  destruct (memsizes sm) as [[[rss pss] uss]|]; [|done]. simpl.
  by intros [= _ <-].
Qed.

(** C3 (amended).  For every status line in which the first opening
    parenthesis comes before every closing one, the name the prober
    extracts is the text strictly between the first opening and the FIRST
    closing parenthesis: with the line read as [a(n)c], no parenthesis in
    [a] and no closing one in [n], the record holds the name [n]. *)
Theorem snapshotPid_name pid w cmd sm a n c rss pss uss :
  readAt fs (clock w) (procPath pid "cmdline") = inl cmd ->
  readAt fs (S (clock w)) (procPath pid "smaps") = inl sm ->
  readAt fs (S (S (clock w))) (procPath pid "stat")
    = inl (a +:+ String "(" (n +:+ String ")" c)) ->
  contains a "(" = false ->
  contains a ")" = false ->
  contains n ")" = false ->
  memsizes sm = Ret (rss, pss, uss) ->
  snapshotPid pid w =
    Ret (inl (Piddata cmd n rss pss uss), World (S (S (S (clock w)))) (allpids w)).
Proof.
  intros H1 H2 H3 Ha1 Ha2 Hn Hsz.
  rewrite (snapshotPid_reads _ _ _ _ _ H1 H2 H3).
  by rewrite (name_slice a n c Ha1 Ha2 Hn), bind_Ret, Hsz.
Qed.

(* ===================================================================== *)
(** ** The sampler and the table *)

Lemma snapshotOne_unfold pid w r w1 :
  snapshotPid pid w = Ret (r, w1) ->
  snapshotOne pid w =
    match r with
    | inl pd => if negb (isKernelProc pd) then upsert pid pd w1 else Ret (tt, w1)
    | inr err => if IsNotExist err then remove pid w1 else Ret (tt, w1)
    end.
Proof.
  intros H. unfold snapshotOne, mbind, M_bind. rewrite H.
  destruct r as [pd|err]; [by destruct (negb _) | by destruct (IsNotExist err)].
Qed.

(** C4.  When the probe of an id fails, the sampler goes on (it does not
    panic); on a not-exist failure the record of that id is removed from the
    table, on any other failure the entry of that id is left as it was; and
    in both cases no entry of another id changes. *)
Theorem snapshotOne_probe_failure pid w err w1 :
  snapshotPid pid w = Ret (inr err, w1) ->
  exists w',
    snapshotOne pid w = Ret (tt, w') /\
    (IsNotExist err = true ->
       allpids w' = delete pid (allpids w) /\ allpids w' !! pid = None) /\
    (IsNotExist err = false ->
       allpids w' = allpids w /\ allpids w' !! pid = allpids w !! pid) /\
    (forall pid', pid' <> pid -> allpids w' !! pid' = allpids w !! pid').
Proof.
  intros H. rewrite (snapshotOne_unfold _ _ _ _ H).
  pose proof (snapshotPid_table _ _ _ _ H) as Ht.
  destruct (IsNotExist err) eqn:E.
  - eexists. split; [reflexivity|]. simpl. rewrite Ht.
    split; [intros _; split; [done | apply lookup_delete_eq]|].
    split; [done|]. intros pid' Hne. by rewrite lookup_delete_ne.
  - eexists. split; [reflexivity|]. rewrite Ht.
    split; [done|]. split; [done|]. done.
Qed.

Lemma isKernelProc_true pd : isKernelProc pd = true <-> cmdline pd = "".
Proof. unfold isKernelProc. by rewrite Z.eqb_eq, slen_zero. Qed.

Lemma snapshotOne_noKernelRecord pid w w' :
  noKernelRecord (allpids w) ->
  snapshotOne pid w = Ret (tt, w') ->
  noKernelRecord (allpids w').
Proof.
  intros Hinv H.
  destruct (snapshotPid pid w) as [[r w1]|] eqn:E.
  2:{ unfold snapshotOne, mbind, M_bind in H. by rewrite E in H. }
  rewrite (snapshotOne_unfold _ _ _ _ E) in H.
  pose proof (snapshotPid_table _ _ _ _ E) as Ht.
  destruct r as [pd|err].
  - destruct (isKernelProc pd) eqn:Ek; simpl in H.
    + injection H as <-. by rewrite Ht.
    + injection H as <-. simpl. rewrite Ht. intros p q Hq.
      destruct (decide (pid = p)) as [->|Hne].
      * rewrite lookup_insert_eq in Hq. injection Hq as <-.
        intros Hc. apply isKernelProc_true in Hc. congruence.
      * rewrite lookup_insert_ne in Hq by done. by eapply Hinv.
  - destruct (IsNotExist err); simpl in H.
    + injection H as <-. simpl. rewrite Ht. intros p q Hq.
      apply lookup_delete_Some in Hq as [_ Hq]. by eapply Hinv.
    + injection H as <-. by rewrite Ht.
Qed.

(** Whole calls of [snapshotPids] stay within the reachable states. *)
Lemma reachable_cycle pids : forall w w',
  reachable w -> snapshotPids pids w = Ret (tt, w') -> reachable w'.
Proof.
  induction pids as [|pid pids IH]; intros w w' Hr H.
  - injection H as <-. done.
  - cbn [snapshotPids] in H. unfold mbind, M_bind in H.
    destruct (snapshotOne pid w) as [[[] w1]|] eqn:E; [|done].
    eapply IH; [|exact H]. by eapply reach_step.
Qed.

Lemma reachable_noKernelRecord w : reachable w -> noKernelRecord (allpids w).
Proof.
  induction 1 as [|w pid w' _ IH H].
  - intros pid pd Hpd. simpl in Hpd. by rewrite lookup_empty in Hpd.
  - by eapply snapshotOne_noKernelRecord.
Qed.

(** What a reader may observe is the table of a reachable state. *)
Lemma observable_reachable w pids tbl :
  reachable w -> observable w pids tbl -> exists w', reachable w' /\ tbl = allpids w'.
Proof.
  intros Hr Ho. induction Ho as [w pids|w pid rest w' tbl Hstep _ IH].
  - by exists w.
  - apply IH. by eapply reach_step.
Qed.

(* ===================================================================== *)
(** ** The exporters *)

Lemma csvRow_columns pid entry : csvRow pid entry = rowOf (pid, entry).
Proof. reflexivity. Qed.

Lemma setIndex_middle {A} (done todo : list A) (x v : A) :
  setIndex (done ++ x :: todo) (length done) v = Ret (done ++ v :: todo).
Proof.
  unfold setIndex. rewrite decide_True.
  - f_equal. replace (length done) with (length done + 0)%nat by lia.
    by rewrite insert_app_r.
  - rewrite length_app. simpl. lia.
Qed.

Lemma makeCSVLoop_fills visit : forall (done todo : list (list string)),
  (length visit <= length todo)%nat ->
  makeCSVLoop visit (done ++ todo) (length done) =
  Ret (done ++ (rowOf <$> visit) ++ drop (length visit) todo).
Proof.
  induction visit as [|[pid entry] visit IH]; intros done todo Hlen.
  - by rewrite drop_0.
  - destruct todo as [|x todo]; [simpl in Hlen; lia|].
    cbn [makeCSVLoop]. rewrite setIndex_middle, bind_Ret.
    replace (done ++ csvRow pid entry :: todo)
      with ((done ++ [csvRow pid entry]) ++ todo) by by rewrite <- app_assoc.
    replace (S (length done)) with (length (done ++ [csvRow pid entry]))
      by (rewrite length_app; simpl; lia).
    rewrite IH by (simpl in Hlen; lia).
    rewrite <- app_assoc. by rewrite csvRow_columns.
Qed.

Lemma visits_length tbl visit : visits tbl visit -> length visit = size tbl.
Proof.
  unfold visits. intros H. by rewrite H, length_map_to_list.
Qed.

Lemma makeCSV_rows tbl visit :
  visits tbl visit -> makeCSV tbl visit = Ret (rowOf <$> visit).
Proof.
  intros H. unfold makeCSV.
  pose proof (makeCSVLoop_fills visit [] (replicate (size tbl) [])) as Hf.
  simpl in Hf. rewrite Hf.
  - rewrite drop_ge; [by rewrite app_nil_r|].
    rewrite length_replicate, (visits_length _ _ H). lia.
  - rewrite length_replicate, (visits_length _ _ H). lia.
Qed.

Lemma visits_lookup tbl visit pid entry :
  visits tbl visit -> (pid, entry) ∈ visit <-> tbl !! pid = Some entry.
Proof.
  unfold visits. intros H. by rewrite H, elem_of_map_to_list.
Qed.

Lemma visits_NoDup tbl visit : visits tbl visit -> NoDup visit.*1.
Proof.
  unfold visits. intros H. rewrite H. apply NoDup_fst_map_to_list.
Qed.

(** C8.  For every table, [printCSV] writes the line [pid,name,rss,uss,pss]
    and then the CSV records of [makeCSV], which never panics and returns
    one row per entry of the table (each id of the table once, and nothing
    else), with the columns pid, name, rss, uss, pss in this order. *)
Theorem printCSV_header_then_rows tbl visit :
  visits tbl visit ->
  exists d,
    makeCSV tbl visit = Ret d /\
    printCSV tbl visit = Ret (("pid,name,rss,uss,pss" +:+ nl) +:+ csvWriteAll d) /\
    d = (fun p => [p.1; Name p.2; Itoa (RSS p.2); Itoa (USS p.2); Itoa (PSS p.2)])
          <$> visit /\
    length d = size tbl /\
    NoDup visit.*1 /\
    (forall pid entry, (pid, entry) ∈ visit <-> tbl !! pid = Some entry).
Proof.
  intros H. exists (rowOf <$> visit).
  pose proof (makeCSV_rows _ _ H) as Hd.
  split; [exact Hd|]. split; [unfold printCSV; by rewrite Hd|].
  split; [done|]. split; [by rewrite length_fmap, (visits_length _ _ H)|].
  split; [by eapply visits_NoDup|].
  intros pid entry. by apply visits_lookup.
Qed.

(** C5.  In every reachable state no record of the table has empty
    command-line bytes; so every row of the CSV export and every member of
    the [pids] object of the JSON export belongs to a record with a
    non-empty command line; and a probe that succeeds with an empty command
    line leaves the table as it is. *)
Theorem reachable_no_kernel_record w :
  reachable w ->
  noKernelRecord (allpids w) /\
  (forall visit d row,
     visits (allpids w) visit -> makeCSV (allpids w) visit = Ret d -> row ∈ d ->
     exists pid pd,
       row = csvRow pid pd /\ allpids w !! pid = Some pd /\ cmdline pd <> "") /\
  (forall timestamp pid pd,
     Pids (makeJSON timestamp (allpids w)) !! pid = Some pd -> cmdline pd <> "") /\
  (forall pid pd w1,
     snapshotPid pid w = Ret (inl pd, w1) -> cmdline pd = "" ->
     snapshotOne pid w = Ret (tt, w1) /\ allpids w1 = allpids w).
Proof.
  intros Hr. pose proof (reachable_noKernelRecord _ Hr) as Hinv.
  split; [exact Hinv|]. split; [|split].
  - intros visit d row Hv Hd Hrow.
    rewrite (makeCSV_rows _ _ Hv) in Hd. injection Hd as <-.
    apply list_elem_of_fmap in Hrow as ([pid pd] & -> & Hin).
    apply (visits_lookup _ _ _ _ Hv) in Hin.
    exists pid, pd. split; [by rewrite csvRow_columns|]. split; [done|].
    by eapply Hinv.
  - intros timestamp pid pd Hpd. simpl in Hpd. by eapply Hinv.
  - intros pid pd w1 Hp Hc.
    rewrite (snapshotOne_unfold _ _ _ _ Hp).
    apply isKernelProc_true in Hc. rewrite Hc. simpl.
    split; [done|]. by eapply snapshotPid_table.
Qed.

(* ===================================================================== *)
(** ** [Atoi] on every decimal integer *)

Lemma parseUintLoop_digits s : forall n,
  0 <= n <= maxUint64 ->
  forallb isDigit (bytes s) = true ->
  parseUintLoop s n =
    if digitsValue s n <=? maxUint64 then (digitsValue s n, None)
    else (maxUint64, Some ErrRange).
Proof.
  induction s as [|c r IH]; intros n Hn H.
  - simpl. destruct (Z.leb_spec n maxUint64); [done|lia].
  - cbn [parseUintLoop digitsValue bytes forallb] in *.
    apply andb_prop in H as [Hc Hr]. rewrite Hc.
    pose proof (isDigit_range _ Hc) as Hd.
    pose proof (digitsValue_ge r (n * 10 + (byte c - 48)) Hr ltac:(lia)) as Hge.
    int_consts.
    change (18446744073709551616 - 1) with 18446744073709551615 in *.
    change (18446744073709551615 / 10 + 1) with 1844674407370955162.
    destruct (Z.leb_spec 1844674407370955162 n).
    { destruct (Z.leb_spec (digitsValue r (n * 10 + (byte c - 48)))
                           18446744073709551615); [lia|done]. }
    destruct (Z.leb_spec (n * 10 + (byte c - 48)) 18446744073709551615) as [Hfit|Hover].
    + rewrite Z.mod_small by lia.
      destruct (Z.ltb_spec (n * 10 + (byte c - 48)) (n * 10)); [lia|].
      destruct (Z.ltb_spec 18446744073709551615 (n * 10 + (byte c - 48))); [lia|].
      simpl. apply IH; [lia | done].
    + replace ((n * 10 + (byte c - 48)) mod 18446744073709551616)
        with (n * 10 + (byte c - 48) - 18446744073709551616).
      2:{ apply Z.mod_unique with (q := 1); lia. }
      destruct (Z.ltb_spec (n * 10 + (byte c - 48) - 18446744073709551616) (n * 10));
        [|lia].
      simpl.
      destruct (Z.leb_spec (digitsValue r (n * 10 + (byte c - 48)))
                           18446744073709551615); [lia|done].
Qed.

Lemma ParseUint_digits s :
  s <> "" -> forallb isDigit (bytes s) = true ->
  ParseUint s =
    if digitsValue s 0 <=? maxUint64 then (digitsValue s 0, None)
    else (maxUint64, Some ErrRange).
Proof.
  intros Hne H. destruct s as [|c r]; [done|].
  unfold ParseUint. apply parseUintLoop_digits; [|done].
  int_consts. lia.
Qed.

Lemma isNumeric_true_digits c r :
  isNumeric (String c r) = true ->
  let digits := if Ascii.eqb c "-" || Ascii.eqb c "+" then r else String c r in
  digits <> "" /\ forallb isDigit (bytes digits) = true.
Proof.
  unfold isNumeric. intros H. cbv zeta.
  apply andb_prop in H as [Hne Hd]. split; [|done].
  apply negb_true_iff, Z.eqb_neq in Hne. intros E. rewrite E in Hne. done.
Qed.

Lemma ParseInt_numeric s :
  isNumeric s = true ->
  ParseInt s = (clampInt (decimalValue s), rangeError (decimalValue s)).
Proof.
  destruct s as [|c r]; [done|]. intros H.
  apply isNumeric_true_digits in H. cbv zeta in H.
  unfold ParseInt, decimalValue.
  destruct (Ascii.eqb c "-") eqn:Em; [|destruct (Ascii.eqb c "+") eqn:Ep];
    cbn [orb andb negb] in H |- *; destruct H as [Hne Hd];
    rewrite ?orb_true_r; cbn [orb];
    rewrite (ParseUint_digits _ Hne Hd);
    pose proof (digitsValue_ge _ 0 Hd ltac:(lia)) as Hge;
    set (V := digitsValue _ 0) in *;
    unfold clampInt, rangeError, int_neg; int_consts;
    change (18446744073709551616 - 1) with 18446744073709551615;
    change (2 ^ (64 - 1)) with 9223372036854775808;
    change (9223372036854775808 - 1) with 9223372036854775807.
  - destruct (Z.leb_spec V 18446744073709551615).
    + destruct (Z.ltb_spec 9223372036854775808 V).
      * destruct (Z.ltb_spec (- V) (- (9223372036854775808))); [done|lia].
      * destruct (Z.ltb_spec (- V) (- (9223372036854775808))); [lia|].
        destruct (Z.ltb_spec 9223372036854775807 (- V)); [lia|]. simpl.
        f_equal. destruct (Z.eq_dec V 9223372036854775808) as [->|Hlt]; [done|].
        rewrite (Z.mod_small (V + _)) by lia.
        replace (V + 9223372036854775808 - 9223372036854775808) with V by lia.
        rewrite Z.mod_small; lia.
    + simpl. destruct (Z.ltb_spec (- V) (- (9223372036854775808))); [done|lia].
  - destruct (Z.leb_spec V 18446744073709551615).
    + destruct (Z.leb_spec 9223372036854775808 V).
      * destruct (Z.ltb_spec V (- (9223372036854775808))); [lia|].
        destruct (Z.ltb_spec 9223372036854775807 V); [done|lia].
      * destruct (Z.ltb_spec V (- (9223372036854775808))); [lia|].
        destruct (Z.ltb_spec 9223372036854775807 V); [lia|]. simpl.
        rewrite Z.mod_small by lia. f_equal. lia.
    + simpl. destruct (Z.ltb_spec V (- (9223372036854775808))); [lia|].
      destruct (Z.ltb_spec 9223372036854775807 V); [done|lia].
  - destruct (Z.leb_spec V 18446744073709551615).
    + destruct (Z.leb_spec 9223372036854775808 V).
      * destruct (Z.ltb_spec V (- (9223372036854775808))); [lia|].
        destruct (Z.ltb_spec 9223372036854775807 V); [done|lia].
      * destruct (Z.ltb_spec V (- (9223372036854775808))); [lia|].
        destruct (Z.ltb_spec 9223372036854775807 V); [lia|]. simpl.
        rewrite Z.mod_small by lia. f_equal. lia.
    + simpl. destruct (Z.ltb_spec V (- (9223372036854775808))); [lia|].
      destruct (Z.ltb_spec 9223372036854775807 V); [done|lia].
Qed.

Lemma decimalValue_short s :
  isNumeric s = true -> slen s < 19 ->
  - 10 ^ 18 < decimalValue s < 10 ^ 18.
Proof.
  intros Hnum Hshort. destruct s as [|c r]; [done|].
  apply isNumeric_true_digits in Hnum. cbv zeta in Hnum.
  unfold decimalValue. cbn [slen] in Hshort. pose proof (slen_nonneg r).
  assert (Hpow : forall k, 0 <= k <= 18 -> 10 ^ k <= 10 ^ 18)
    by (intros k Hk; apply Z.pow_le_mono_r; lia).
  destruct (Ascii.eqb c "-") eqn:Em; [|destruct (Ascii.eqb c "+") eqn:Ep];
    cbn [orb] in Hnum; destruct Hnum as [_ Hd].
  - pose proof (digitsValue_lt r 0 Hd ltac:(lia)).
    pose proof (digitsValue_ge r 0 Hd ltac:(lia)).
    pose proof (Hpow (slen r) ltac:(lia)). lia.
  - pose proof (digitsValue_lt r 0 Hd ltac:(lia)).
    pose proof (digitsValue_ge r 0 Hd ltac:(lia)).
    pose proof (Hpow (slen r) ltac:(lia)). lia.
  - pose proof (digitsValue_lt (String c r) 0 Hd ltac:(lia)) as Hlt.
    pose proof (digitsValue_ge (String c r) 0 Hd ltac:(lia)).
    cbn [slen] in Hlt. pose proof (Hpow (1 + slen r) ltac:(lia)). lia.
Qed.

Lemma clampInt_id z : in_int z -> clampInt z = z /\ rangeError z = None.
Proof.
  unfold clampInt, rangeError, in_int. intros H.
  destruct (Z.ltb_spec z minInt); [lia|].
  destruct (Z.ltb_spec maxInt z); [lia|]. done.
Qed.

(** [Atoi] on a decimal integer: its value when it is an [int], else the
    nearer bound of [int] with a range error. *)
Lemma Atoi_numeric s :
  isNumeric s = true ->
  Atoi s = (clampInt (decimalValue s), rangeError (decimalValue s)).
Proof.
  intros H. destruct (Z.ltb_spec (slen s) 19) as [Hshort|Hlong].
  - rewrite (Atoi_decimal _ H Hshort).
    pose proof (decimalValue_short _ H Hshort) as Hb.
    destruct (clampInt_id (decimalValue s)) as [-> ->]; [|done].
    int_consts. change (10 ^ 18) with 1000000000000000000 in Hb. lia.
  - unfold Atoi.
    replace ((0 <? slen s) && (slen s <? 19)) with false.
    + by apply ParseInt_numeric.
    + symmetry. apply andb_false_iff. right. apply Z.ltb_ge. lia.
Qed.

(** X4.  A counter line whose value field is a decimal integer stores the
    number the field denotes when it fits an [int], and otherwise the bound
    of [int] on its side; no other counter and no other block changes. *)
Theorem scanLine_numeric_value line pm start m :
  isCounterLine line = true ->
  pm !! start = Some m ->
  isNumeric (field line 1) = true ->
  scanLine line (pm, start)
    = Ret (<[start := <[labelOf line := clampInt (decimalValue (field line 1))]> m]> pm,
           start) /\
  (in_int (decimalValue (field line 1)) ->
   clampInt (decimalValue (field line 1)) = decimalValue (field line 1)).
Proof.
  intros Hc Hm Hnum. split.
  - rewrite (scanLine_counter _ _ _ _ Hc Hm). unfold valueOf.
    by rewrite (Atoi_numeric _ Hnum).
  - intros Hin. by destruct (clampInt_id _ Hin).
Qed.

(* ===================================================================== *)
(** ** [Itoa] and back *)

Lemma digitsValue_of_uint_acc d : forall acc,
  digitsValue (NilEmpty.string_of_uint d) (Z.pos acc) = Z.pos (Pos.of_uint_acc d acc).
Proof.
  induction d; intros acc; cbn [NilEmpty.string_of_uint digitsValue Pos.of_uint_acc];
    [done|..];
    rewrite <- IHd; f_equal; vm_compute (byte _); lia.
Qed.

Lemma digitsValue_of_uint d :
  digitsValue (NilEmpty.string_of_uint d) 0 = Z.of_N (Pos.of_uint d).
Proof.
  induction d; cbn [NilEmpty.string_of_uint digitsValue Pos.of_uint]; [done|..];
    vm_compute (0 * 10 + (byte _ - 48));
    [exact IHd | apply digitsValue_of_uint_acc ..].
Qed.

Lemma string_of_uint_digits d :
  forallb isDigit (bytes (NilEmpty.string_of_uint d)) = true.
Proof. induction d; [done|..]; exact IHd. Qed.

Lemma string_of_uint_nonnil d : d <> Decimal.Nil -> NilEmpty.string_of_uint d <> "".
Proof. by destruct d. Qed.

Lemma isDigit_not_sign c :
  isDigit c = true -> Ascii.eqb c "-" = false /\ Ascii.eqb c "+" = false.
Proof.
  intros H. split; destruct (Ascii.eqb_spec c "-"), (Ascii.eqb_spec c "+");
    subst; try done.
Qed.

Lemma Itoa_pos p :
  Itoa (Z.pos p) = NilEmpty.string_of_uint (Pos.to_uint p).
Proof.
  unfold Itoa. cbn [Z.to_int NilZero.string_of_int]. unfold NilZero.string_of_uint.
  pose proof (Unsigned.to_uint_nonnil p). by destruct (Pos.to_uint p).
Qed.

Lemma Itoa_neg p :
  Itoa (Z.neg p) = String "-" (NilEmpty.string_of_uint (Pos.to_uint p)).
Proof.
  unfold Itoa. cbn [Z.to_int NilZero.string_of_int]. unfold NilZero.string_of_uint.
  pose proof (Unsigned.to_uint_nonnil p). by destruct (Pos.to_uint p).
Qed.

Lemma unsigned_numeric s :
  s <> "" -> forallb isDigit (bytes s) = true ->
  isNumeric s = true /\ decimalValue s = digitsValue s 0.
Proof.
  intros Hne Hd. destruct s as [|c r]; [done|].
  pose proof Hd as Hd'. cbn [bytes forallb] in Hd'. apply andb_prop in Hd' as [Hc _].
  destruct (isDigit_not_sign _ Hc) as [Hm Hp].
  unfold isNumeric, decimalValue. rewrite Hm, Hp. cbn [orb]. split; [|done].
  rewrite Hd, andb_true_r. apply negb_true_iff, Z.eqb_neq.
  cbn [slen]. pose proof (slen_nonneg r). lia.
Qed.

(** What [Itoa] prints is a decimal integer that denotes the number. *)
Lemma Itoa_numeric z : isNumeric (Itoa z) = true /\ decimalValue (Itoa z) = z.
Proof.
  destruct z as [|p|p].
  - done.
  - rewrite Itoa_pos.
    destruct (unsigned_numeric (NilEmpty.string_of_uint (Pos.to_uint p))) as [-> ->].
    + apply string_of_uint_nonnil, Unsigned.to_uint_nonnil.
    + apply string_of_uint_digits.
    + by rewrite digitsValue_of_uint, Unsigned.of_to.
  - rewrite Itoa_neg.
    pose proof (string_of_uint_nonnil _ (Unsigned.to_uint_nonnil p)) as Hne.
    pose proof (string_of_uint_digits (Pos.to_uint p)) as Hd.
    unfold isNumeric, decimalValue.
    replace (Ascii.eqb "-" "-") with true by reflexivity. cbn [orb].
    rewrite Hd, andb_true_r, digitsValue_of_uint, Unsigned.of_to. split; [|done].
    apply negb_true_iff, Z.eqb_neq. by rewrite slen_zero.
Qed.

(** X5.  The parser reads back every number the CSV export prints: for
    every [int] [z], [Atoi (Itoa z)] is [z] without error. *)
Theorem Atoi_Itoa z :
  in_int z -> Atoi (Itoa z) = (z, None).
Proof.
  intros Hz. destruct (Itoa_numeric z) as [Hnum Hval].
  rewrite (Atoi_numeric _ Hnum), Hval.
  by destruct (clampInt_id _ Hz) as [-> ->].
Qed.

(* ===================================================================== *)
(** ** Blocks that share a start address *)

Lemma storeBlocks_lookup bs : forall pm k,
  fold_left storeBlock bs pm !! k =
  match lastBlockAt k bs with
  | Some b => Some (countersOf b)
  | None => pm !! k
  end.
Proof.
  unfold lastBlockAt.
  induction bs as [|b bs IH]; intros pm k; [done|].
  cbn [fold_left]. rewrite IH, filter_cons.
  destruct (decide (startOf b = k)) as [<-|Hne].
  - rewrite last_cons.
    destruct (last (filter _ bs)); [done|].
    unfold storeBlock. by rewrite lookup_insert_eq.
  - destruct (last (filter _ bs)); [done|].
    unfold storeBlock. by rewrite lookup_insert_ne.
Qed.

(** X2.  On every well-formed text [getsmaps] returns the map that holds,
    for each start address, the counters of the last block starting there
    (within a block, the value stored last under a label), and nothing for
    an address no block starts at. *)
Theorem getsmaps_last_block_per_start smaps bs :
  wellFormed smaps bs ->
  exists pm,
    getsmaps smaps = Ret pm /\
    forall k,
      match lastBlockAt k bs with
      | Some b => exists m, pm !! k = Some m /\ forall n, geti m n = counter n b
      | None => pm !! k = None
      end.
Proof.
  intros Hwf. exists (fold_left storeBlock bs ∅).
  split; [by apply getsmaps_wellFormed|].
  intros k. rewrite storeBlocks_lookup.
  destruct (lastBlockAt k bs) as [b|]; [|apply lookup_empty].
  exists (countersOf b). split; [done|]. intros n. apply geti_countersOf.
Qed.

Lemma storeBlocks_overwritten bs : forall pm k v,
  k ∈ startOf <$> bs ->
  fold_left storeBlock bs (<[k := v]> pm) = fold_left storeBlock bs pm.
Proof.
  induction bs as [|b bs IH]; intros pm k v Hin.
  - by apply elem_of_nil in Hin.
  - cbn [fold_left]. unfold storeBlock at 2 4.
    destruct (decide (startOf b = k)) as [<-|Hne].
    + by rewrite insert_insert_eq.
    + rewrite insert_insert_ne by done. apply IH.
      rewrite fmap_cons in Hin. apply elem_of_cons in Hin as [?|?]; [congruence|done].
Qed.

Lemma lastBlocks_starts bs k :
  k ∈ startOf <$> lastBlocks bs <-> k ∈ startOf <$> bs.
Proof.
  induction bs as [|b bs IH]; [done|].
  cbn [lastBlocks]. rewrite fmap_cons, elem_of_cons.
  case_bool_decide as Hb.
  - rewrite IH. split; [by right|]. intros [->|?]; done.
  - by rewrite fmap_cons, elem_of_cons, IH.
Qed.

Lemma lastBlocks_NoDup bs : NoDup (startOf <$> lastBlocks bs).
Proof.
  induction bs as [|b bs IH]; [constructor|].
  cbn [lastBlocks]. case_bool_decide as Hb; [done|].
  rewrite fmap_cons. constructor; [|done]. by rewrite lastBlocks_starts.
Qed.

Lemma storeBlocks_lastBlocks bs : forall pm,
  fold_left storeBlock bs pm = fold_left storeBlock (lastBlocks bs) pm.
Proof.
  induction bs as [|b bs IH]; intros pm; [done|].
  cbn [fold_left lastBlocks]. case_bool_decide as Hb.
  - rewrite IH. unfold storeBlock at 2. apply storeBlocks_overwritten.
    by rewrite lastBlocks_starts.
  - cbn [fold_left]. apply IH.
Qed.

Lemma lastBlocks_NoDup_id bs : NoDup (startOf <$> bs) -> lastBlocks bs = bs.
Proof.
  induction bs as [|b bs IH]; [done|].
  rewrite fmap_cons. intros [Hb Hnd]%NoDup_cons.
  cbn [lastBlocks]. rewrite bool_decide_eq_false_2 by done. by rewrite IH.
Qed.

(** X3.  On every well-formed text [memsizes] returns the sums taken over
    the blocks that no later block of the same start address follows, each
    reduced to [int]; these are all the blocks when the start addresses are
    pairwise distinct. *)
Theorem memsizes_counts_last_blocks smaps bs :
  wellFormed smaps bs ->
  memsizes smaps =
    Ret (wrap (rssSum (lastBlocks bs)), wrap (pssSum (lastBlocks bs)),
         wrap (ussSum (lastBlocks bs))) /\
  (NoDup (startOf <$> bs) -> lastBlocks bs = bs).
Proof.
  intros Hwf. split; [|apply lastBlocks_NoDup_id].
  unfold memsizes.
  rewrite (getsmaps_wellFormed _ _ Hwf), bind_Ret, storeBlocks_lastBlocks.
  rewrite (sumSizes_perm _ _ (storeBlocks_to_list _ (lastBlocks_NoDup bs))).
  rewrite sumSizes_closed, !sumOf_countersOf, sumOver_add. done.
Qed.

(* ===================================================================== *)
(** ** Text after the last line *)

Lemma Split_append s t sep :
  Split (s +:+ String sep t) sep = Split s sep ++ Split t sep.
Proof.
  induction s as [|c s IH].
  - rewrite append_nil. simpl. by rewrite Ascii.eqb_refl.
  - rewrite append_cons. simpl. rewrite IH.
    destruct (Ascii.eqb c sep); [done|].
    destruct (Split_nonempty s sep) as (x & xs & ->). done.
Qed.

Lemma scannedLines_until_empty xs zs :
  scannedLines (xs ++ "" :: zs) = scannedLines xs.
Proof.
  induction xs as [|x xs IH]; [done|].
  simpl. destruct (slen x =? 0); [done|]. by rewrite IH.
Qed.

Lemma getsmaps_scannedLines s s' :
  scannedLines (Split s (chr 10)) = scannedLines (Split s' (chr 10)) ->
  getsmaps s = getsmaps s'.
Proof.
  intros H. unfold getsmaps.
  by rewrite (scan_scannedLines (Split s _)), (scan_scannedLines (Split s' _)), H.
Qed.

(** X6.  A final newline changes nothing, and neither does anything that
    follows an empty line: for all texts [s] and [t], [getsmaps] and
    [memsizes] give on [s] followed by a newline, and on [s] followed by two
    newlines and [t], what they give on [s]. *)
Theorem getsmaps_ignores_tail s t :
  getsmaps (s +:+ nl) = getsmaps s /\
  getsmaps (s +:+ nl +:+ nl +:+ t) = getsmaps s /\
  memsizes (s +:+ nl) = memsizes s /\
  memsizes (s +:+ nl +:+ nl +:+ t) = memsizes s.
Proof.
  assert (H1 : getsmaps (s +:+ nl) = getsmaps s).
  { apply getsmaps_scannedLines. unfold nl.
    rewrite Split_append. apply scannedLines_until_empty. }
  assert (H2 : getsmaps (s +:+ nl +:+ nl +:+ t) = getsmaps s).
  { apply getsmaps_scannedLines.
    change (s +:+ nl +:+ nl +:+ t) with (s +:+ String (chr 10) (String (chr 10) t)).
    rewrite Split_append. cbn [Split]. rewrite Ascii.eqb_refl.
    apply scannedLines_until_empty. }
  unfold memsizes. by rewrite H1, H2.
Qed.

(** X1.  [getsmaps] returns exactly on the texts whose lines before the
    first empty line start with a header line and go on with header lines
    and counter lines that have a value field; on every other text it
    panics. *)
Theorem getsmaps_returns_exactly smaps :
  ((exists pm, getsmaps smaps = Ret pm) <->
   parsable (scannedLines (Split smaps (chr 10)))) /\
  ((exists p, getsmaps smaps = Crash p) <->
   ~ parsable (scannedLines (Split smaps (chr 10)))).
Proof.
  pose proof (getsmaps_returns_iff smaps) as H.
  split; [exact H|].
  destruct (getsmaps smaps) as [pm|p].
  - split; [by intros [? ?]|]. intros Hn. destruct Hn. apply H. by exists pm.
  - split; [|by exists p]. intros _ Hp. apply H in Hp as [? ?]. done.
Qed.

(* ===================================================================== *)
(** ** More on the prober *)

(** X8.  The prober returns an error only when one of its three reads
    fails: the error is that of the first failing read, no later file is
    read, and the table is not touched.  (A status line or a maps text it
    cannot handle never becomes an error.) *)
Theorem snapshotPid_error_is_read_failure pid w err w' :
  snapshotPid pid w = Ret (inr err, w') ->
  (readAt fs (clock w) (procPath pid "cmdline") = inr err /\
   w' = World (S (clock w)) (allpids w)) \/
  ((exists cmd, readAt fs (clock w) (procPath pid "cmdline") = inl cmd) /\
   readAt fs (S (clock w)) (procPath pid "smaps") = inr err /\
   w' = World (S (S (clock w))) (allpids w)) \/
  ((exists cmd, readAt fs (clock w) (procPath pid "cmdline") = inl cmd) /\
   (exists sm, readAt fs (S (clock w)) (procPath pid "smaps") = inl sm) /\
   readAt fs (S (S (clock w))) (procPath pid "stat") = inr err /\
   w' = World (S (S (S (clock w)))) (allpids w)).
Proof.
  unfold procPath, snapshotPid, ReadFile, mbind, M_bind, mret, M_ret, lift. simpl.
  destruct (readAt fs (clock w) _) as [cmd|e1]; simpl.
  2:{ intros [= <- <-]. by left. }
  destruct (readAt fs (S (clock w)) _) as [sm|e2]; simpl.
  2:{ intros [= <- <-]. right. left. split; [by eexists | done]. }
  destruct (readAt fs (S (S (clock w))) _) as [st|e3]; simpl.
  2:{ intros [= <- <-]. right. right. split; [by eexists|]. split; [by eexists | done]. }
  destruct (slice st _ _) as [name|]; [|done]. simpl.
  destruct (memsizes sm) as [[[rss pss] uss]|]; done.
Qed.

(** X9.  When the three reads succeed, the status line decides whether the
    prober panics before it looks at the maps: with no closing parenthesis,
    or with the first one before the character after the first opening
    one, the slice expression panics; otherwise the prober goes on to
    [memsizes], and panics or returns a record as [memsizes] does. *)
Theorem snapshotPid_status_line pid w cmd sm st :
  readAt fs (clock w) (procPath pid "cmdline") = inl cmd ->
  readAt fs (S (clock w)) (procPath pid "smaps") = inl sm ->
  readAt fs (S (S (clock w))) (procPath pid "stat") = inl st ->
  (Index st ")" < Index st "(" + 1 -> snapshotPid pid w = Crash SliceBounds) /\
  (contains st ")" = false -> snapshotPid pid w = Crash SliceBounds) /\
  (Index st "(" + 1 <= Index st ")" ->
   (forall p, memsizes sm = Crash p -> snapshotPid pid w = Crash p) /\
   (forall rss pss uss,
      memsizes sm = Ret (rss, pss, uss) ->
      exists name,
        slice st (Index st "(" + 1) (Index st ")") = Ret name /\
        snapshotPid pid w =
          Ret (inl (Piddata cmd name rss pss uss),
               World (S (S (S (clock w)))) (allpids w)))).
Proof.
  intros H1 H2 H3. rewrite (snapshotPid_reads _ _ _ _ _ H1 H2 H3).
  pose proof (Index_bound st "(") as Hi.
  assert (Hj : Index st ")" < slen st).
  { clear. induction st as [|d r IH]; simpl; [lia|].
    pose proof (slen_nonneg r).
    destruct (Ascii.eqb d ")"); [lia|].
    destruct (Z.ltb_spec (Index r ")") 0); lia. }
  assert (Hbad : Index st ")" < Index st "(" + 1 ->
                 slice st (Index st "(" + 1) (Index st ")") = Crash SliceBounds).
  { intros Hlt. unfold slice.
    destruct (Z.leb_spec (Index st "(" + 1) (Index st ")")); [lia|].
    by rewrite andb_false_r. }
  split; [intros Hlt; by rewrite (Hbad Hlt)|].
  split.
  { intros Hc. apply contains_false_Index in Hc. rewrite Hbad; [done | lia]. }
  intros Hle. unfold slice.
  replace ((0 <=? Index st "(" + 1) && (Index st "(" + 1 <=? Index st ")") &&
           (Index st ")" <=? slen st)) with true
    by (symmetry; rewrite !andb_true_iff, !Z.leb_le; lia).
  rewrite bind_Ret. split.
  - intros p ->. done.
  - intros rss pss uss ->. eexists. split; reflexivity.
Qed.

Lemma substring_before_Index c s : forall n m,
  Z.of_nat n + Z.of_nat m <= Index s c ->
  contains (String.substring n m s) c = false.
Proof.
  induction s as [|d r IH]; intros n m H.
  - simpl in H. lia.
  - cbn [Index] in H. destruct (Ascii.eqb d c) eqn:E.
    + assert (n = 0%nat /\ m = 0%nat) as [-> ->] by lia. done.
    + destruct (Z.ltb_spec (Index r c) 0); [lia|].
      destruct n as [|n].
      * destruct m as [|m]; [done|]. cbn [String.substring].
        rewrite contains_cons, E. apply (IH 0%nat m). lia.
      * cbn [String.substring]. apply IH. lia.
Qed.

Lemma slice_before_Index c s lo name :
  slice s lo (Index s c) = Ret name -> contains name c = false.
Proof.
  unfold slice. destruct (_ && _) eqn:E; [|done]. intros [= <-].
  apply andb_prop in E as [E _]. apply andb_prop in E as [E1 E2].
  apply Z.leb_le in E1, E2. apply substring_before_Index. lia.
Qed.

Lemma snapshotPid_Ret_name pid w pd w' :
  snapshotPid pid w = Ret (inl pd, w') -> contains (Name pd) ")" = false.
Proof.
  unfold snapshotPid, ReadFile, mbind, M_bind, mret, M_ret, lift. simpl.
  destruct (readAt fs (clock w) _) as [cmd|e1]; simpl; [|done].
  destruct (readAt fs (S (clock w)) _) as [sm|e2]; simpl; [|done].
  destruct (readAt fs (S (S (clock w))) _) as [st|e3]; simpl; [|done].
  destruct (slice st _ _) as [name|] eqn:Es; [|done]. simpl.
  destruct (memsizes sm) as [[[rss pss] uss]|]; [|done]. simpl.
  intros [= <- _]. simpl. by eapply slice_before_Index.
Qed.

(* ===================================================================== *)
(** ** More on the sampler *)

Lemma snapshotOne_tableAfter pid w r w1 :
  snapshotPid pid w = Ret (r, w1) ->
  snapshotOne pid w = Ret (tt, World (clock w1) (tableAfter r pid (allpids w))).
Proof.
  intros H. rewrite (snapshotOne_unfold _ _ _ _ H).
  pose proof (snapshotPid_table _ _ _ _ H) as Ht. unfold tableAfter.
  destruct w1 as [c1 t1]. simpl in Ht. subst t1.
  destruct r as [pd|err]; [by destruct (negb _) | by destruct (IsNotExist err)].
Qed.

Lemma snapshotOne_Ret_inv pid w w' :
  snapshotOne pid w = Ret (tt, w') ->
  exists r w1,
    snapshotPid pid w = Ret (r, w1) /\
    w' = World (clock w1) (tableAfter r pid (allpids w)).
Proof.
  intros H. destruct (snapshotPid pid w) as [[r w1]|] eqn:E.
  - exists r, w1. split; [done|].
    rewrite (snapshotOne_tableAfter _ _ _ _ E) in H. by injection H as <-.
  - unfold snapshotOne, mbind, M_bind in H. by rewrite E in H.
Qed.

Lemma tableAfter_lookup_ne r pid tbl k :
  k <> pid -> tableAfter r pid tbl !! k = tbl !! k.
Proof.
  intros Hne. unfold tableAfter.
  destruct r as [pd|err]; [destruct (negb _) | destruct (IsNotExist err)];
    try done; [by rewrite lookup_insert_ne | by rewrite lookup_delete_ne].
Qed.

Lemma tableAfter_Name r pid tbl k pd :
  (forall q, r = inl q -> contains (Name q) ")" = false) ->
  (forall j q, tbl !! j = Some q -> contains (Name q) ")" = false) ->
  tableAfter r pid tbl !! k = Some pd -> contains (Name pd) ")" = false.
Proof.
  intros Hr Ht. unfold tableAfter.
  destruct r as [q|err]; [destruct (negb _) | destruct (IsNotExist err)]; try by eauto.
  - destruct (decide (pid = k)) as [->|Hne].
    + rewrite lookup_insert_eq. intros [= <-]. by apply Hr.
    + rewrite lookup_insert_ne by done. eauto.
  - intros [_ H]%lookup_delete_Some. eauto.
Qed.

(** X10.  No record of a reachable table has a closing parenthesis in its
    name: the name ends before the first one of the status line. *)
Theorem reachable_names_without_close w pid pd :
  reachable w -> allpids w !! pid = Some pd -> contains (Name pd) ")" = false.
Proof.
  intros Hr. revert pid pd. induction Hr as [|w p w' _ IH Hstep]; intros pid pd.
  - simpl. by rewrite lookup_empty.
  - apply snapshotOne_Ret_inv in Hstep as (r & w1 & Hp & ->). simpl.
    apply tableAfter_Name; [|exact IH].
    intros q ->. by eapply snapshotPid_Ret_name.
Qed.

(** X11.  When the probe of an id returns a record with a non-empty
    command line, the iteration stores exactly that record under the id,
    replacing any older one, and no entry of another id changes. *)
Theorem snapshotOne_probe_success pid w pd w1 :
  snapshotPid pid w = Ret (inl pd, w1) ->
  cmdline pd <> "" ->
  exists w',
    snapshotOne pid w = Ret (tt, w') /\
    allpids w' = <[pid := pd]> (allpids w) /\
    allpids w' !! pid = Some pd /\
    (forall pid', pid' <> pid -> allpids w' !! pid' = allpids w !! pid').
Proof.
  intros H Hc. eexists. split; [by apply snapshotOne_tableAfter|]. simpl.
  assert (Hk : isKernelProc pd = false).
  { destruct (isKernelProc pd) eqn:E; [|done]. by apply isKernelProc_true in E. }
  rewrite Hk. simpl. split; [done|]. split; [apply lookup_insert_eq|].
  intros pid' Hne. by rewrite lookup_insert_ne.
Qed.

Lemma snapshotPids_cons_inv pid pids w w' :
  snapshotPids (pid :: pids) w = Ret (tt, w') ->
  exists w1, snapshotOne pid w = Ret (tt, w1) /\ snapshotPids pids w1 = Ret (tt, w').
Proof.
  cbn [snapshotPids]. unfold mbind, M_bind.
  destruct (snapshotOne pid w) as [[[] w1]|]; [|done]. eauto.
Qed.

(** X12.  A call of [snapshotPids] changes no entry of an id that is not
    in its list: such an id keeps its record, or stays absent; so every id
    of the table afterwards was in the table before or is in the list. *)
Theorem snapshotPids_frame pids w w' :
  snapshotPids pids w = Ret (tt, w') ->
  (forall k, k ∉ pids -> allpids w' !! k = allpids w !! k) /\
  (forall k, is_Some (allpids w' !! k) -> is_Some (allpids w !! k) \/ k ∈ pids).
Proof.
  intros H.
  assert (Hframe : forall k, k ∉ pids -> allpids w' !! k = allpids w !! k).
  { revert w H. induction pids as [|p pids IH]; intros w H k Hk.
    - by injection H as <-.
    - apply snapshotPids_cons_inv in H as (w1 & H1 & H2).
      apply not_elem_of_cons in Hk as [Hne Hk].
      rewrite (IH _ H2 _ Hk).
      apply snapshotOne_Ret_inv in H1 as (r & w2 & _ & ->). simpl.
      by apply tableAfter_lookup_ne. }
  split; [exact Hframe|].
  intros k Hs. destruct (decide (k ∈ pids)) as [?|Hk]; [by right|left].
  by rewrite <- (Hframe _ Hk).
Qed.

(** X13.  Probing a list of ids followed by another is probing the first
    list and then, from the state reached, the second; a panic in the first
    is a panic of the whole. *)
Theorem snapshotPids_app pids1 pids2 w :
  snapshotPids (pids1 ++ pids2) w =
  match snapshotPids pids1 w with
  | Ret (_, w1) => snapshotPids pids2 w1
  | Crash p => Crash p
  end.
Proof.
  revert w. induction pids1 as [|p pids1 IH]; intros w; [done|].
  rewrite <- app_comm_cons. cbn [snapshotPids]. unfold mbind, M_bind.
  destruct (snapshotOne p w) as [[[] w1]|]; [apply IH|done].
Qed.

Lemma snapshotPid_clock pid w r w1 :
  snapshotPid pid w = Ret (r, w1) ->
  (S (clock w) <= clock w1 <= 3 + clock w)%nat.
Proof.
  unfold snapshotPid, ReadFile, mbind, M_bind, mret, M_ret, lift. simpl.
  destruct (readAt fs (clock w) _) as [cmd|e1]; simpl; [|intros [= _ <-]; simpl; lia].
  destruct (readAt fs (S (clock w)) _) as [sm|e2]; simpl; [|intros [= _ <-]; simpl; lia].
  destruct (readAt fs (S (S (clock w))) _) as [st|e3]; simpl;
    [|intros [= _ <-]; simpl; lia].
  destruct (slice st _ _) as [name|]; [|done]. simpl.
  destruct (memsizes sm) as [[[rss pss] uss]|]; [|done]. simpl.
  intros [= _ <-]. simpl. lia.
Qed.

(** X14.  A call of [snapshotPids] that returns has read at least one file
    and at most three files for each id of its list. *)
Theorem snapshotPids_reads pids w w' :
  snapshotPids pids w = Ret (tt, w') ->
  (clock w + length pids <= clock w' <= clock w + 3 * length pids)%nat.
Proof.
  revert w. induction pids as [|p pids IH]; intros w H.
  - injection H as <-. simpl. lia.
  - apply snapshotPids_cons_inv in H as (w1 & H1 & H2).
    apply IH in H2.
    apply snapshotOne_Ret_inv in H1 as (r & w2 & Hp & ->).
    apply snapshotPid_clock in Hp. simpl in *. lia.
Qed.

(* ===================================================================== *)
(** ** A second cycle over an unchanged file system *)

Lemma tableAfter_lookup_eq r pid tbl :
  tableAfter r pid tbl !! pid = settleAt r (tbl !! pid).
Proof.
  unfold tableAfter, settleAt.
  destruct r as [pd|err]; [destruct (negb _) | destruct (IsNotExist err)];
    try done; [apply lookup_insert_eq | apply lookup_delete_eq].
Qed.

Lemma settleAt_idem r old : settleAt r (settleAt r old) = settleAt r old.
Proof.
  unfold settleAt.
  destruct r as [pd|err]; [by destruct (negb _) | by destruct (IsNotExist err)].
Qed.

Lemma snapshotPid_stable pid u v r u1 :
  stable fs ->
  snapshotPid pid u = Ret (r, u1) ->
  exists v1, snapshotPid pid v = Ret (r, v1).
Proof.
  intros Hst.
  unfold snapshotPid, ReadFile, mbind, M_bind, mret, M_ret, lift. simpl.
  rewrite (Hst (clock v) (clock u)).
  destruct (readAt fs (clock u) _) as [cmd|e1]; simpl;
    [|intros [= <- _]; by eexists].
  rewrite (Hst (S (clock v)) (S (clock u))).
  destruct (readAt fs (S (clock u)) _) as [sm|e2]; simpl;
    [|intros [= <- _]; by eexists].
  rewrite (Hst (S (S (clock v))) (S (S (clock u)))).
  destruct (readAt fs (S (S (clock u))) _) as [st|e3]; simpl;
    [|intros [= <- _]; by eexists].
  destruct (slice st _ _) as [name|]; [|done]. simpl.
  destruct (memsizes sm) as [[[rss pss] uss]|]; [|done]. simpl.
  intros [= <- _]. by eexists.
Qed.

Lemma settled_after_probe pid w w' :
  stable fs ->
  snapshotOne pid w = Ret (tt, w') ->
  settled pid (allpids w').
Proof.
  intros Hst H. apply snapshotOne_Ret_inv in H as (r0 & w1 & Hp & ->).
  intros v r v1 Hv. simpl.
  destruct (snapshotPid_stable _ _ w _ _ Hst Hv) as [w2 Hw].
  rewrite Hp in Hw. injection Hw as -> _.
  by rewrite tableAfter_lookup_eq, settleAt_idem.
Qed.

Lemma snapshotPids_frame_lookup pids : forall w w' k,
  snapshotPids pids w = Ret (tt, w') ->
  k ∉ pids -> allpids w' !! k = allpids w !! k.
Proof.
  induction pids as [|p pids IH]; intros w w' k H Hk.
  - by injection H as <-.
  - apply snapshotPids_cons_inv in H as (w1 & H1 & H2).
    apply not_elem_of_cons in Hk as [Hne Hk].
    rewrite (IH _ _ _ H2 Hk).
    apply snapshotOne_Ret_inv in H1 as (r & w2 & _ & ->). simpl.
    by apply tableAfter_lookup_ne.
Qed.

Lemma first_cycle_settles pids : forall w w1,
  stable fs ->
  snapshotPids pids w = Ret (tt, w1) ->
  forall k, k ∈ pids ->
    settled k (allpids w1) /\ exists v r v1, snapshotPid k v = Ret (r, v1).
Proof.
  induction pids as [|p pids IH]; intros w w1 Hst H k Hk.
  - by apply elem_of_nil in Hk.
  - apply snapshotPids_cons_inv in H as (w' & H1 & H2).
    destruct (decide (k ∈ pids)) as [Hin|Hnin]; [by eapply IH|].
    apply elem_of_cons in Hk as [->|?]; [|done].
    split.
    + pose proof (settled_after_probe _ _ _ Hst H1) as Hs.
      intros v r v1 Hv. rewrite (snapshotPids_frame_lookup _ _ _ _ H2 Hnin).
      by eapply Hs.
    + apply snapshotOne_Ret_inv in H1 as (r & w2 & Hp & _). eauto.
Qed.

Lemma settled_cycle_returns pids : forall v,
  stable fs ->
  (forall k, k ∈ pids ->
     settled k (allpids v) /\ exists u r u1, snapshotPid k u = Ret (r, u1)) ->
  exists v', snapshotPids pids v = Ret (tt, v') /\ allpids v' = allpids v.
Proof.
  induction pids as [|p pids IH]; intros v Hst Hall; [by eexists|].
  destruct (Hall p ltac:(by left)) as [Hs (u & r & u1 & Hu)].
  destruct (snapshotPid_stable _ _ v _ _ Hst Hu) as [v1 Hv].
  assert (Hsame : tableAfter r p (allpids v) = allpids v).
  { apply map_eq. intros j. destruct (decide (j = p)) as [->|Hne].
    - rewrite tableAfter_lookup_eq. by eapply Hs.
    - by apply tableAfter_lookup_ne. }
  cbn [snapshotPids]. unfold mbind, M_bind.
  rewrite (snapshotOne_tableAfter _ _ _ _ Hv), Hsame.
  destruct (IH (World (clock v1) (allpids v)) Hst) as (v' & Hv' & Ht).
  { intros k Hk. apply Hall. by right. }
  exists v'. by split.
Qed.

(** X15.  Over a process-information file system that does not change, a
    second call of [snapshotPids] on the same ids returns and leaves the
    table exactly as the first call left it. *)
Theorem snapshotPids_second_cycle pids w w1 :
  stable fs ->
  snapshotPids pids w = Ret (tt, w1) ->
  exists w2, snapshotPids pids w1 = Ret (tt, w2) /\ allpids w2 = allpids w1.
Proof.
  intros Hst H. apply settled_cycle_returns; [done|].
  intros k Hk. by eapply first_cycle_settles.
Qed.

(* ===================================================================== *)
(** ** More on the exporters *)

Lemma makeCSVLoop_overflow visit : forall (done todo : list (list string)),
  (length todo < length visit)%nat ->
  makeCSVLoop visit (done ++ todo) (length done) = Crash IndexOutOfRange.
Proof.
  induction visit as [|[pid entry] visit IH]; intros done todo Hlen.
  - simpl in Hlen. lia.
  - cbn [makeCSVLoop]. destruct todo as [|x todo].
    + rewrite app_nil_r. unfold setIndex. rewrite decide_False by lia. done.
    + rewrite setIndex_middle, bind_Ret.
      replace (done ++ csvRow pid entry :: todo)
        with ((done ++ [csvRow pid entry]) ++ todo) by by rewrite <- app_assoc.
      replace (S (length done)) with (length (done ++ [csvRow pid entry]))
        by (rewrite length_app; simpl; lia).
      apply IH. simpl in Hlen. lia.
Qed.

(** X16.  [makeCSV] makes as many rows as the table has entries before it
    ranges over the table: when the range yields no more entries than that,
    it returns their rows followed by empty rows for the missing ones; when
    the range yields more, as it can only when the table grows meanwhile,
    [d[c]] is out of range and it panics. *)
Theorem makeCSV_any_visit tbl visit :
  ((length visit <= size tbl)%nat ->
   makeCSV tbl visit =
     Ret (((fun p => [p.1; Name p.2; Itoa (RSS p.2); Itoa (USS p.2); Itoa (PSS p.2)])
             <$> visit)
          ++ replicate (size tbl - length visit) [])) /\
  ((size tbl < length visit)%nat -> makeCSV tbl visit = Crash IndexOutOfRange).
Proof.
  unfold makeCSV. split; intros Hlen.
  - pose proof (makeCSVLoop_fills visit [] (replicate (size tbl) [])) as Hf.
    simpl in Hf. rewrite Hf by (rewrite length_replicate; lia).
    by rewrite drop_replicate.
  - apply (makeCSVLoop_overflow visit [] (replicate (size tbl) [])).
    rewrite length_replicate. lia.
Qed.

Lemma sumSizes_in_int ms :
  in_int (sumSizes ms).1.1 /\ in_int (sumSizes ms).1.2 /\ in_int (sumSizes ms).2.
Proof. rewrite sumSizes_closed. simpl. repeat split; apply wrap_in_int. Qed.

Lemma memsizes_in_int smaps rss pss uss :
  memsizes smaps = Ret (rss, pss, uss) -> in_int rss /\ in_int pss /\ in_int uss.
Proof.
  unfold memsizes. destruct (getsmaps smaps) as [pm|]; [|done].
  rewrite bind_Ret. intros [= H].
  pose proof (sumSizes_in_int (map_to_list pm).*2) as Hs.
  rewrite H in Hs. exact Hs.
Qed.

Lemma snapshotPid_Ret_sizes pid w pd w' :
  snapshotPid pid w = Ret (inl pd, w') ->
  in_int (RSS pd) /\ in_int (PSS pd) /\ in_int (USS pd).
Proof.
  unfold snapshotPid, ReadFile, mbind, M_bind, mret, M_ret, lift. simpl.
  destruct (readAt fs (clock w) _) as [cmd|e1]; simpl; [|done].
  destruct (readAt fs (S (clock w)) _) as [sm|e2]; simpl; [|done].
  destruct (readAt fs (S (S (clock w))) _) as [st|e3]; simpl; [|done].
  destruct (slice st _ _) as [name|] eqn:Es; [|done]. simpl.
  destruct (memsizes sm) as [[[rss pss] uss]|] eqn:Em; [|done]. simpl.
  intros [= <- _]. simpl. by eapply memsizes_in_int.
Qed.

Lemma tableAfter_invariant (P : piddata -> Prop) r pid tbl k pd :
  (forall q, r = inl q -> P q) ->
  (forall j q, tbl !! j = Some q -> P q) ->
  tableAfter r pid tbl !! k = Some pd -> P pd.
Proof.
  intros Hr Ht. unfold tableAfter.
  destruct r as [q|err]; [destruct (negb _) | destruct (IsNotExist err)]; try by eauto.
  - destruct (decide (pid = k)) as [->|Hne].
    + rewrite lookup_insert_eq. intros [= <-]. by apply Hr.
    + rewrite lookup_insert_ne by done. eauto.
  - intros [_ H]%lookup_delete_Some. eauto.
Qed.

Lemma reachable_sizes_in_int w pid pd :
  reachable w -> allpids w !! pid = Some pd ->
  in_int (RSS pd) /\ in_int (PSS pd) /\ in_int (USS pd).
Proof.
  intros Hr. revert pid pd. induction Hr as [|w p w' _ IH Hstep]; intros pid pd.
  - simpl. by rewrite lookup_empty.
  - apply snapshotOne_Ret_inv in Hstep as (r & w1 & Hp & ->). simpl.
    apply (tableAfter_invariant
             (fun q => in_int (RSS q) /\ in_int (PSS q) /\ in_int (USS q)));
      [|exact IH].
    intros q ->. by eapply snapshotPid_Ret_sizes.
Qed.

(** X17.  In every reachable state the two exports agree: the ids in the
    first column of the CSV rows are the ids of the [pids] object of the
    JSON snapshot, and each row carries the name of the record of its id
    and, in its columns rss, uss and pss, numbers that [Atoi] reads back as
    the [rss], [uss] and [pss] of that record. *)
Theorem exports_agree w timestamp visit :
  reachable w ->
  visits (allpids w) visit ->
  exists d,
    makeCSV (allpids w) visit = Ret d /\
    (forall pid,
       is_Some (Pids (makeJSON timestamp (allpids w)) !! pid) <->
       exists row, row ∈ d /\ row !! 0%nat = Some pid) /\
    (forall row,
       row ∈ d ->
       exists pid pd r u p,
         Pids (makeJSON timestamp (allpids w)) !! pid = Some pd /\
         row = [pid; Name pd; r; u; p] /\
         Atoi r = (RSS pd, None) /\ Atoi u = (USS pd, None) /\ Atoi p = (PSS pd, None)).
Proof.
  intros Hr Hv. exists (rowOf <$> visit).
  split; [by apply makeCSV_rows|]. simpl. split.
  - intros pid. split.
    + intros [pd Hpd]. exists (rowOf (pid, pd)). split; [|done].
      apply list_elem_of_fmap. exists (pid, pd). split; [done|].
      by apply (visits_lookup _ _ _ _ Hv).
    + intros (row & Hrow & H0).
      apply list_elem_of_fmap in Hrow as ([pid' pd] & -> & Hin).
      injection H0 as <-. exists pd. by apply (visits_lookup _ _ _ _ Hv).
  - intros row Hrow.
    apply list_elem_of_fmap in Hrow as ([pid pd] & -> & Hin).
    apply (visits_lookup _ _ _ _ Hv) in Hin.
    destruct (reachable_sizes_in_int _ _ _ Hr Hin) as (H1 & H2 & H3).
    exists pid, pd, (Itoa (RSS pd)), (Itoa (USS pd)), (Itoa (PSS pd)).
    split; [done|]. split; [done|].
    pose proof (Itoa_numeric (RSS pd)) as [Hn1 Hv1].
    pose proof (Itoa_numeric (USS pd)) as [Hn2 Hv2].
    pose proof (Itoa_numeric (PSS pd)) as [Hn3 Hv3].
    rewrite (Atoi_numeric _ Hn1), (Atoi_numeric _ Hn2), (Atoi_numeric _ Hn3).
    rewrite Hv1, Hv2, Hv3.
    destruct (clampInt_id _ H1) as [-> ->].
    destruct (clampInt_id _ H2) as [-> ->].
    by destruct (clampInt_id _ H3) as [-> ->].
Qed.

(* ===================================================================== *)
(** ** The callers *)

Lemma snapshotAllLoop_filter entries : forall acc,
  Forall (fun name => name <> "") entries ->
  snapshotAllLoop entries acc
    = Ret (acc ++ filter (fun name => startsWithDigit name = true) entries).
Proof.
  induction entries as [|name entries IH]; intros acc Hall.
  - by rewrite app_nil_r.
  - apply Forall_cons in Hall as [Hne Hall].
    destruct name as [|c name]; [done|].
    cbn [snapshotAllLoop bytes]. rewrite index_0, bind_Ret.
    rewrite filter_cons. change (startsWithDigit (String c name)) with (isDigit c).
    unfold isDigit. destruct (_ && _).
    + rewrite decide_True by done. rewrite (IH _ Hall), <- app_assoc. done.
    + rewrite decide_False by done. by apply IH.
Qed.

Lemma snapshotAllLoop_empty_name entries : forall acc,
  "" ∈ entries -> snapshotAllLoop entries acc = Crash IndexOutOfRange.
Proof.
  induction entries as [|name entries IH]; intros acc Hin.
  - by apply elem_of_nil in Hin.
  - destruct name as [|c name]; [done|].
    apply elem_of_cons in Hin as [?|Hin]; [done|].
    cbn [snapshotAllLoop bytes]. rewrite index_0, bind_Ret.
    destruct (_ && _); by apply IH.
Qed.

(** X18.  [snapshotAll] returns, in the order of the directory, exactly the
    entries whose first byte is a decimal digit, whatever follows that byte;
    it reads no process file and leaves the table alone; a listing that
    fails ends the program, and an entry with an empty name would make
    [name[0]] panic. *)
Theorem snapshotAll_keeps_digit_names dir w :
  (forall entries,
     listAt dir (clock w) = inl entries ->
     Forall (fun name => name <> "") entries ->
     snapshotAll dir w
       = Ret (Some (filter (fun name => startsWithDigit name = true) entries), w)) /\
  (forall entries,
     listAt dir (clock w) = inl entries ->
     "" ∈ entries -> snapshotAll dir w = Crash IndexOutOfRange) /\
  (forall err, listAt dir (clock w) = inr err -> snapshotAll dir w = Ret (None, w)).
Proof.
  unfold snapshotAll. repeat split.
  - intros entries -> Hall. by rewrite (snapshotAllLoop_filter _ [] Hall).
  - intros entries -> Hin. by rewrite (snapshotAllLoop_empty_name _ [] Hin).
  - by intros err ->.
Qed.

Lemma work_explicit dir verbose visit pids w :
  pids <> [] ->
  work dir verbose visit pids w =
  match snapshotPids pids w with
  | Ret (_, w1) => if verbose then dumpCSV visit w1 else Ret (Some "", w1)
  | Crash p => Crash p
  end.
Proof.
  intros Hne. unfold work.
  replace (len pids =? 0) with false.
  2:{ symmetry. apply Z.eqb_neq. unfold len. destruct pids; [done|]. simpl. lia. }
  unfold mbind, M_bind, mret, M_ret.
  destruct (snapshotPids pids w) as [[[] w1]|]; [|done].
  by destruct verbose.
Qed.

Lemma dumpCSV_world visit w r w' : dumpCSV visit w = Ret (r, w') -> w' = w /\ r <> None.
Proof.
  unfold dumpCSV. destruct (printCSV _ _) as [out|]; [|done].
  rewrite bind_Ret. by intros [= <- <-].
Qed.

Lemma work_explicit_inv dir verbose visit pids w r w' :
  pids <> [] ->
  work dir verbose visit pids w = Ret (r, w') ->
  r <> None /\ snapshotPids pids w = Ret (tt, w').
Proof.
  intros Hne. rewrite (work_explicit _ _ _ _ _ Hne).
  destruct (snapshotPids pids w) as [[[] w1]|]; [|done].
  destruct verbose.
  - intros H. apply dumpCSV_world in H as [-> ?]. done.
  - by intros [= <- <-].
Qed.

Lemma cycles_explicit n : forall dir verbose visit pids w r w',
  pids <> [] ->
  cycles n dir verbose visit pids w = Ret (r, w') ->
  r <> None /\
  (forall k, is_Some (allpids w' !! k) -> is_Some (allpids w !! k) \/ k ∈ pids) /\
  (forall dir', cycles n dir' verbose visit pids w = Ret (r, w')).
Proof.
  induction n as [|n IH]; intros dir verbose visit pids w r w' Hne H.
  - injection H as <- <-. split; [done|]. split; [by left | done].
  - cbn [cycles] in H |- *. unfold mbind, M_bind in H |- *.
    destruct (work dir verbose visit pids w) as [[r1 w1]|] eqn:Ew; [|done].
    destruct (work_explicit_inv _ _ _ _ _ _ _ Hne Ew) as [Hr1 Hs].
    destruct r1 as [out|]; [|done].
    destruct (cycles n dir verbose visit pids w1) as [[r2 w2]|] eqn:Ec; [|done].
    destruct (IH _ _ _ _ _ _ _ Hne Ec) as (Hr2 & Hdom & Hdir).
    injection H as <- <-. split; [by destruct r2|]. split.
    + intros k Hk. destruct (Hdom k Hk) as [Hk1|?]; [|by right].
      destruct (decide (k ∈ pids)) as [?|Hnin]; [by right|left].
      by rewrite <- (snapshotPids_frame_lookup _ _ _ _ Hs Hnin).
    + intros dir'.
      assert (Ew' : work dir' verbose visit pids w = Ret (Some out, w1)).
      { rewrite (work_explicit _ _ _ _ _ Hne).
        rewrite (work_explicit _ _ _ _ _ Hne) in Ew. exact Ew. }
      by rewrite Ew', (Hdir dir').
Qed.

(** X19.  With ids given on the command line, the loop of [main] never
    lists /proc (nothing depends on the directory and the program does not
    exit through [snapshotAll]) and the table, empty at the start, never
    holds an id that was not given. *)
Theorem cycles_with_given_ids n dir verbose visit pids r w :
  pids <> [] ->
  cycles n dir verbose visit pids (World 0 ∅) = Ret (r, w) ->
  r <> None /\
  (forall k, is_Some (allpids w !! k) -> k ∈ pids) /\
  (forall dir', cycles n dir' verbose visit pids (World 0 ∅) = Ret (r, w)).
Proof.
  intros Hne H.
  destruct (cycles_explicit _ _ _ _ _ _ _ _ Hne H) as (Hr & Hdom & Hdir).
  split; [done|]. split; [|done].
  intros k Hk. destruct (Hdom k Hk) as [[? Hemp]|?]; [|done].
  simpl in Hemp. by rewrite lookup_empty in Hemp.
Qed.

(* ===================================================================== *)
(** ** The shape of the parser's output *)

Lemma scanLine_Ret_cases line pm start pm' start' :
  scanLine line (pm, start) = Ret (pm', start') ->
  (isHeaderLine line = true /\
   pm' = <[startOfLine line := ∅]> pm /\ start' = startOfLine line) \/
  (isCounterLine line = true /\
   exists m, pm !! start = Some m /\
     pm' = <[start := <[labelOf line := valueOf line]> m]> pm /\ start' = start).
Proof.
  intros H. destruct (scanLine_Ret_inv _ _ _ _ H) as [Hh | (Hc & [m Hm] & _)].
  - left. rewrite (scanLine_header _ _ _ Hh) in H. by injection H as <- <-.
  - right. rewrite (scanLine_counter _ _ _ _ Hc Hm) in H. injection H as <- <-. eauto.
Qed.

Lemma scan_preserves (P : pmaps -> Prop) (Q : string -> Prop) lines :
  (forall line pm start pm' start',
     Q line -> P pm -> scanLine line (pm, start) = Ret (pm', start') -> P pm') ->
  Forall Q lines ->
  forall st st', P st.1 -> scan lines st = Ret st' -> P st'.1.
Proof.
  intros Hstep Hall. induction Hall as [|l lines Hl _ IH]; intros [pm start] st' HP H.
  - by injection H as <-.
  - cbn [scan] in H. destruct (slen l =? 0); [by injection H as <-|].
    destruct (scanLine l (pm, start)) as [[pm1 start1]|] eqn:E; [|done].
    rewrite bind_Ret in H. eapply IH; [|exact H]. simpl. by eapply Hstep.
Qed.

Lemma getsmaps_preserves (P : pmaps -> Prop) (Q : string -> Prop) smaps pm :
  (forall line pm start pm' start',
     Q line -> P pm -> scanLine line (pm, start) = Ret (pm', start') -> P pm') ->
  Forall Q (Split smaps (chr 10)) ->
  P ∅ -> getsmaps smaps = Ret pm -> P pm.
Proof.
  intros Hstep Hall H0. unfold getsmaps.
  destruct (scan _ _) as [[pm' start']|] eqn:E; [|done].
  rewrite bind_Ret. intros [= <-].
  exact (scan_preserves P Q _ Hstep Hall (∅, "") (pm', start') H0 E).
Qed.

Lemma startOfLine_no_dash line : contains (startOfLine line) "-" = false.
Proof.
  unfold startOfLine. pose proof (Split_elements (field line 0) "-") as Hall.
  destruct (Split (field line 0) "-") as [|x xs]; [done|].
  by apply Forall_cons in Hall as [? _].
Qed.

(** X7.  No start address in the map [getsmaps] returns contains a dash:
    the key of a block is the text of its first field before the first
    dash. *)
Theorem getsmaps_keys_without_dash smaps pm k :
  getsmaps smaps = Ret pm -> is_Some (pm !! k) -> contains k "-" = false.
Proof.
  intros H. revert k.
  apply (getsmaps_preserves
           (fun pm => forall k, is_Some (pm !! k) -> contains k "-" = false)
           (fun _ => True) smaps pm); [| |by intros k [? ?] | done].
  - intros line pm0 start pm' start' _ HP Hs k.
    destruct (scanLine_Ret_cases _ _ _ _ _ Hs) as [(_ & -> & _) | (_ & m & Hm & -> & _)].
    + destruct (decide (startOfLine line = k)) as [<-|Hne].
      * intros _. apply startOfLine_no_dash.
      * rewrite lookup_insert_ne by done. apply HP.
    + destruct (decide (start = k)) as [<-|Hne].
      * intros _. apply HP. by eexists.
      * rewrite lookup_insert_ne by done. apply HP.
  - apply Forall_forall. done.
Qed.

Lemma isASCII_Forall s : isASCII s = true <-> Forall (fun c => byte c < 128) (bytes s).
Proof.
  unfold isASCII. induction (bytes s) as [|c l IH]; simpl.
  - split; [constructor | done].
  - rewrite andb_true_iff, Forall_cons, IH, Z.ltb_lt. done.
Qed.

Lemma consField_elem w fds f : f ∈ consField w fds -> f = w \/ f ∈ fds.
Proof.
  destruct w; simpl; [by right|]. intros [->|?]%elem_of_cons; [by left | by right].
Qed.

Lemma fieldsFrom_bytes s : forall k w fds,
  fieldsFrom s k = (w, fds) ->
  (forall c, c ∈ bytes w -> c ∈ bytes s) /\
  (forall f c, f ∈ fds -> c ∈ bytes f -> c ∈ bytes s).
Proof.
  induction s as [|d r IH]; intros k w fds H.
  - injection H as <- <-. split; [done|]. intros f c Hf. by apply elem_of_nil in Hf.
  - cbn [fieldsFrom] in H.
    assert (Hskip : forall j,
      (let '(w0, fds0) := fieldsFrom r j in ("", consField w0 fds0)) = (w, fds) ->
      (forall c, c ∈ bytes w -> c ∈ bytes (String d r)) /\
      (forall f c, f ∈ fds -> c ∈ bytes f -> c ∈ bytes (String d r))).
    { intros j Hj. destruct (fieldsFrom r j) as [w0 fds0] eqn:E.
      injection Hj as <- <-. destruct (IH _ _ _ E) as [Hw Hf].
      split; [intros c Hc; by apply elem_of_nil in Hc|].
      intros f c Hin Hc. cbn [bytes]. apply elem_of_cons. right.
      apply consField_elem in Hin as [->|Hin]; [by apply Hw | by eapply Hf]. }
    destruct k as [|k]; [|by apply (Hskip k)].
    destruct (spaceWidth (String d r)) as [|j]; [|by apply (Hskip j)].
    destruct (fieldsFrom r 0) as [w0 fds0] eqn:E.
    injection H as <- <-. destruct (IH _ _ _ E) as [Hw Hf].
    split.
    + intros c. cbn [bytes]. rewrite !elem_of_cons. intros [?|?]; [by left|right; auto].
    + intros f c Hin Hc. cbn [bytes]. apply elem_of_cons. right. by eapply Hf.
Qed.

Lemma Fields_bytes s f c : f ∈ Fields s -> c ∈ bytes f -> c ∈ bytes s.
Proof.
  unfold Fields. destruct (fieldsFrom s 0) as [w fds] eqn:E.
  destruct (fieldsFrom_bytes _ _ _ _ E) as [Hw Hf].
  intros [->|Hin]%consField_elem; [apply Hw | by apply Hf].
Qed.

Lemma Split_bytes s sep l c : l ∈ Split s sep -> c ∈ bytes l -> c ∈ bytes s.
Proof.
  revert l. induction s as [|d r IH]; intros l.
  - simpl. intros ->%list_elem_of_singleton. done.
  - cbn [Split bytes]. destruct (Ascii.eqb d sep).
    + intros [->|Hin]%elem_of_cons; [intros Hc; by apply elem_of_nil in Hc|].
      intros Hc. apply elem_of_cons. right. by eapply IH.
    + destruct (Split r sep) as [|x xs].
      * intros ->%list_elem_of_singleton. cbn [bytes].
        intros Hc. apply elem_of_cons. left.
        by apply list_elem_of_singleton in Hc.
      * intros [->|Hin]%elem_of_cons Hc.
        -- cbn [bytes] in Hc. apply elem_of_cons in Hc as [->|Hc]; [by left|].
           apply elem_of_cons. right. apply (IH x); [by left | done].
        -- apply elem_of_cons. right. apply (IH l); [by right | done].
Qed.

Lemma TrimRight_bytes s c x : x ∈ bytes (TrimRight s c) -> x ∈ bytes s.
Proof.
  induction s as [|d r IH]; [done|]. cbn [TrimRight bytes].
  destruct (TrimRight r c) as [|e r'] eqn:E.
  - destruct (Ascii.eqb d c); [intros Hx; by apply elem_of_nil in Hx|]. cbn [bytes].
    intros ->%list_elem_of_singleton. by left.
  - cbn [bytes]. intros [->|Hx]%elem_of_cons; [by left|].
    apply elem_of_cons. right. by apply IH.
Qed.

Lemma TrimRight_last s c : last (bytes (TrimRight s c)) <> Some c.
Proof.
  induction s as [|d r IH]; [done|]. cbn [TrimRight].
  destruct (TrimRight r c) as [|e r'] eqn:E.
  - destruct (Ascii.eqb_spec d c); [done|]. cbn. congruence.
  - cbn [bytes]. cbn [bytes] in IH. by rewrite last_cons_cons.
Qed.

Lemma bytes_of_bytes l : bytes (of_bytes l) = l.
Proof. induction l as [|c l IH]; [done|]. simpl. by rewrite IH. Qed.

Lemma lowerByte_not_upper c : byte c < 128 -> isUpper (lowerByte c) = false.
Proof.
  intros Hc. unfold lowerByte, isUpper.
  destruct ((65 <=? byte c) && (byte c <=? 90)) eqn:E; [|exact E].
  apply andb_prop in E as [E1 E2]. apply Z.leb_le in E1, E2.
  assert (Hb : byte (chr (byte c + 32)) = byte c + 32).
  { unfold byte, chr in *. rewrite N_ascii_embedding; lia. }
  rewrite Hb. apply andb_false_iff. right. apply Z.leb_gt. lia.
Qed.

Lemma lowerByte_colon c : Ascii.eqb (lowerByte c) ":" = Ascii.eqb c ":".
Proof.
  unfold lowerByte.
  destruct ((65 <=? byte c) && (byte c <=? 90)) eqn:E; [|done].
  apply andb_prop in E as [E1 E2]. apply Z.leb_le in E1, E2.
  destruct (Ascii.eqb_spec c ":") as [->|_];
    [change (byte ":"%char) with 58 in E1; lia|].
  apply Ascii.eqb_neq. intros Heq.
  assert (Hb : byte (chr (byte c + 32)) = byte c + 32).
  { unfold byte, chr in *. rewrite N_ascii_embedding; lia. }
  rewrite Heq in Hb. change (byte ":"%char) with 58 in Hb. lia.
Qed.

Lemma ToLower_normal s :
  Forall (fun c => byte c < 128) (bytes s) ->
  last (bytes s) <> Some ":"%char ->
  normalLabel (ToLower unicodeLower s) = true.
Proof.
  intros Hascii Hlast. unfold ToLower.
  rewrite (proj2 (isASCII_Forall s) Hascii).
  unfold normalLabel. rewrite bytes_of_bytes. apply andb_true_iff. split.
  - apply forallb_forall. intros x Hx.
    apply list_elem_of_In, list_elem_of_fmap in Hx as (c & -> & Hc).
    rewrite Forall_forall in Hascii.
    by rewrite (lowerByte_not_upper _ (Hascii _ Hc)).
  - rewrite fmap_last. destruct (last (bytes s)) as [c|]; [|done]. simpl.
    rewrite lowerByte_colon. apply negb_true_iff, Ascii.eqb_neq. congruence.
Qed.

(** X20.  On a text of ASCII bytes, every counter name in the map
    [getsmaps] returns is in lower case and does not end with a colon. *)
Theorem getsmaps_counter_names smaps pm k m n :
  isASCII smaps = true ->
  getsmaps smaps = Ret pm ->
  pm !! k = Some m -> is_Some (m !! n) -> normalLabel n = true.
Proof.
  intros Hascii H. revert k m n.
  apply (getsmaps_preserves
           (fun pm => forall k m n,
              pm !! k = Some m -> is_Some (m !! n) -> normalLabel n = true)
           (fun line => Forall (fun c => byte c < 128) (bytes line)) smaps pm);
    [| | |done].
  - intros line pm0 start pm' start' Hline HP Hs k m n.
    destruct (scanLine_Ret_cases _ _ _ _ _ Hs) as [(_ & -> & _) | (Hc & m0 & Hm & -> & _)].
    + destruct (decide (startOfLine line = k)) as [<-|Hne].
      * rewrite lookup_insert_eq. intros [= <-] [? Hn]. by rewrite lookup_empty in Hn.
      * rewrite lookup_insert_ne by done. apply HP.
    + destruct (decide (start = k)) as [<-|Hne].
      2:{ rewrite lookup_insert_ne by done. apply HP. }
      rewrite lookup_insert_eq. intros [= <-].
      destruct (decide (labelOf line = n)) as [<-|Hn].
      2:{ rewrite lookup_insert_ne by done. exact (HP start m0 n Hm). }
      intros _. unfold labelOf. apply ToLower_normal; [|apply TrimRight_last].
      apply Forall_forall. intros c Hin. apply TrimRight_bytes in Hin.
      rewrite Forall_forall in Hline. apply Hline.
      unfold field in Hin. destruct (Fields line !! 0%nat) as [f0|] eqn:Ef;
        [|simpl in Hin; by apply elem_of_nil in Hin].
      simpl in Hin. eapply Fields_bytes; [|exact Hin].
      by eapply list_elem_of_lookup_2.
  - apply isASCII_Forall in Hascii. apply Forall_forall. intros l Hl.
    apply Forall_forall. intros c Hc. rewrite Forall_forall in Hascii.
    apply Hascii. by eapply Split_bytes.
  - intros k m n Hk. by rewrite lookup_empty in Hk.
Qed.

End Memchart.

(* ===================================================================== *)
(** ** Instances *)

Lemma wellFormed_catAndHeap : wellFormed catAndHeap catAndHeapBlocks.
Proof.
  split; [left; vm_compute; reflexivity|].
  repeat constructor; vm_compute; reflexivity.
Defined.

Lemma memsizes_sums_over_blocks_witness :
  wellFormed catAndHeap catAndHeapBlocks /\
  NoDup (startOf <$> catAndHeapBlocks) /\
  memsizes asciiOnly catAndHeap = Ret (16, 14, 16).
Proof.
  assert (Hnd : NoDup (startOf <$> catAndHeapBlocks)).
  { apply (bool_decide_unpack _). vm_compute. reflexivity. }
  split; [exact wellFormed_catAndHeap|]. split; [exact Hnd|].
  exact (proj1 (memsizes_sums_over_blocks asciiOnly catAndHeap catAndHeapBlocks
                  wellFormed_catAndHeap Hnd)).
Defined.

Lemma memsizes_sums_over_blocks_counterexample :
  wellFormed sameStart sameStartBlocks /\
  memsizes asciiOnly sameStart = Ret (16, 16, 16) /\
  (rssSum asciiOnly sameStartBlocks,
   pssSum asciiOnly sameStartBlocks,
   ussSum asciiOnly sameStartBlocks) = (20, 18, 20).
Proof.
  split; [|split; vm_compute; reflexivity].
  split; [left; vm_compute; reflexivity|].
  repeat constructor; vm_compute; reflexivity.
Qed.

Lemma memsizes_two_identical_blocks_counterexample :
  memsizes asciiOnly twoCatBlocks = Ret (4, 2, 4) /\
  memsizes asciiOnly twoCatBlocks <> Ret (8, 4, 8).
Proof. split; [vm_compute; reflexivity | vm_compute; discriminate]. Qed.

Lemma snapshotPid_name_witness :
  snapshotPid asciiOnly fsExample "1" (World 0 ∅) = Ret (inl initRecord, World 3 ∅).
Proof.
  apply (snapshotPid_name asciiOnly fsExample "1" (World 0 ∅)
           "/sbin/init" oneCatBlock "1 " "init" " S 0 1 1" 4 2 4);
    vm_compute; reflexivity.
Defined.

Lemma snapshotPid_name_counterexample :
  contains "7 (a)b) S 1 7 7" "(" = true /\
  contains "7 (a)b) S 1 7 7" ")" = true /\
  snapshotPid asciiOnly fsExample "7" (World 0 ∅) = Ret (inl shRecord, World 3 ∅) /\
  Name shRecord = "a" /\
  nameFirstToLast "7 (a)b) S 1 7 7" = "a)b".
Proof. repeat split; vm_compute; reflexivity. Qed.

Lemma snapshotOne_probe_failure_witness :
  exists w',
    snapshotOne asciiOnly fsExample "404" staleWorld = Ret (tt, w') /\
    (IsNotExist ErrNotExist = true ->
       allpids w' = delete "404" (allpids staleWorld) /\ allpids w' !! "404" = None) /\
    (IsNotExist ErrNotExist = false ->
       allpids w' = allpids staleWorld /\
       allpids w' !! "404" = allpids staleWorld !! "404") /\
    (forall pid', pid' <> "404" -> allpids w' !! pid' = allpids staleWorld !! pid').
Proof.
  apply (snapshotOne_probe_failure asciiOnly fsExample "404" staleWorld ErrNotExist
           (World 1 (allpids staleWorld))).
  vm_compute. reflexivity.
Defined.

(** A failure other than not-exist: the maps of process 9 may not be read,
    and its record stays. *)
Example snapshotOne_permission_denied :
  snapshotOne asciiOnly fsExample "9" staleWorld = Ret (tt, World 2 (allpids staleWorld)).
Proof. vm_compute. reflexivity. Qed.

Lemma reachable_after_one_cycle :
  reachable asciiOnly fsExample (World 9 twoRecords).
Proof.
  apply (reachable_cycle asciiOnly fsExample ["1"; "2"; "7"] (World 0 ∅)).
  - apply reach_init.
  - vm_compute. reflexivity.
Defined.

Lemma reachable_no_kernel_record_witness :
  reachable asciiOnly fsExample (World 9 twoRecords) /\
  noKernelRecord (allpids (World 9 twoRecords)).
Proof.
  split; [exact reachable_after_one_cycle|].
  exact (proj1 (reachable_no_kernel_record asciiOnly fsExample _
                  reachable_after_one_cycle)).
Defined.

Lemma getsmaps_stops_at_first_empty_line_witness :
  Split gapText (chr 10) = catBlock ++ "" :: (heapBlock ++ [""]) /\
  getsmaps asciiOnly gapText = getsmaps asciiOnly (JoinWith catBlock nl).
Proof.
  assert (Hs : Split gapText (chr 10) = catBlock ++ "" :: (heapBlock ++ [""])).
  { vm_compute. reflexivity. }
  split; [exact Hs|].
  refine (proj1 (proj2 (getsmaps_stops_at_first_empty_line asciiOnly gapText catBlock
                          (heapBlock ++ [""]) Hs _))).
  repeat constructor; discriminate.
Defined.

Lemma scanLine_malformed_value_witness :
  exists v e,
    Atoi (field naLine 1) = (v, Some e) /\
    scanLine asciiOnly naLine ({[ "08048000" := ∅ ]}, "08048000")
      = Ret (<["08048000" := <[labelOf asciiOnly naLine := v]> ∅]>
               {[ "08048000" := ∅ ]}, "08048000") /\
    (e = ErrSyntax -> v = 0) /\
    (e = ErrRange -> v = maxInt \/ v = minInt) /\
    (slen (field naLine 1) < 19 -> v = 0) /\
    (forall n, n <> labelOf asciiOnly naLine ->
       <[labelOf asciiOnly naLine := v]> (∅ : gmap string Z) !! n = (∅ : gmap string Z) !! n) /\
    (forall k, k <> "08048000" ->
       <["08048000" := <[labelOf asciiOnly naLine := v]> ∅]>
         ({[ "08048000" := ∅ ]} : gmap string (gmap string Z)) !! k
       = ({[ "08048000" := ∅ ]} : gmap string (gmap string Z)) !! k).
Proof.
  apply (scanLine_malformed_value asciiOnly naLine {[ "08048000" := ∅ ]} "08048000" ∅);
    vm_compute; reflexivity.
Defined.

Lemma scanLine_malformed_value_counterexample :
  isCounterLine "Rss: 99999999999999999999x kB" = true /\
  isNumeric (field "Rss: 99999999999999999999x kB" 1) = false /\
  Atoi (field "Rss: 99999999999999999999x kB" 1) = (9223372036854775807, Some ErrRange) /\
  getsmaps asciiOnly overflowText
    = Ret {[ "08048000" := {[ "rss" := 9223372036854775807 ]} ]}.
Proof. repeat split; vm_compute; reflexivity. Qed.

Lemma printCSV_header_then_rows_witness :
  visits twoRecords (map_to_list twoRecords) /\
  exists d,
    makeCSV twoRecords (map_to_list twoRecords) = Ret d /\
    printCSV twoRecords (map_to_list twoRecords)
      = Ret (("pid,name,rss,uss,pss" +:+ nl) +:+ csvWriteAll d) /\
    d = (fun p => [p.1; Name p.2; Itoa (RSS p.2); Itoa (USS p.2); Itoa (PSS p.2)])
          <$> map_to_list twoRecords /\
    length d = size twoRecords /\
    NoDup (map_to_list twoRecords).*1 /\
    (forall pid entry,
       (pid, entry) ∈ map_to_list twoRecords <-> twoRecords !! pid = Some entry).
Proof.
  assert (Hv : visits twoRecords (map_to_list twoRecords)) by (unfold visits; reflexivity).
  split; [exact Hv|].
  exact (printCSV_header_then_rows twoRecords (map_to_list twoRecords) Hv).
Defined.

(** What [printCSV] writes for the two records. *)
Example printCSV_twoRecords :
  printCSV twoRecords [("1", initRecord); ("7", shRecord)]
  = Ret (JoinWith [ "pid,name,rss,uss,pss"; "1,init,4,4,2"; "7,a,16,16,14" ] nl +:+ nl).
Proof. vm_compute. reflexivity. Qed.

Lemma getsmaps_not_total_witness :
  Forall (fun l => onlySpace l = false) (scannedLines (Split oneCatBlock (chr 10))) /\
  (forall l rest,
     scannedLines (Split oneCatBlock (chr 10)) = l :: rest -> isHeaderLine l = true).
Proof.
  refine (proj2 (proj2 (proj2 (proj2 (getsmaps_not_total asciiOnly)))) oneCatBlock
            {[ "08048000" :=
                 {[ "rss" := 4; "pss" := 2; "private_clean" := 0; "private_dirty" := 4 ]} ]}
            _).
  vm_compute. reflexivity.
Defined.

(** C9.  A reader that runs while [snapshotPids] is between two ids sees a
    table that is neither the one before the cycle nor the one after it:
    nothing guards [allpids]. *)
Theorem reader_observes_partial_cycle :
  observable asciiOnly fsExample (World 0 ∅) ["1"; "7"] {[ "1" := initRecord ]} /\
  snapshotPids asciiOnly fsExample ["1"; "7"] (World 0 ∅) = Ret (tt, World 6 twoRecords) /\
  ({[ "1" := initRecord ]} : gmap string piddata) <> ∅ /\
  ({[ "1" := initRecord ]} : gmap string piddata) <> twoRecords.
Proof.
  split; [|split; [vm_compute; reflexivity|split]].
  - apply (obs_later asciiOnly fsExample (World 0 ∅) "1" ["7"]
             (World 3 {[ "1" := initRecord ]})).
    + vm_compute. reflexivity.
    + exact (obs_here asciiOnly fsExample (World 3 {[ "1" := initRecord ]}) ["7"]).
  - intros H. apply (f_equal (fun t => t !! "1")) in H. vm_compute in H. discriminate.
  - intros H. apply (f_equal (fun t => t !! "7")) in H. vm_compute in H. discriminate.
Qed.

(* ===================================================================== *)
(** ** Further examples *)

(** Unicode white space separates fields as the ASCII one does: a
    no-break space (U+00A0, bytes c2 a0) between [Rss:] and [4]. *)
Example Fields_no_break_space :
  Fields ("Rss:" +:+ String (chr 194) (String (chr 160) "4 kB")) = ["Rss:"; "4"; "kB"].
Proof. vm_compute. reflexivity. Qed.

(** A status line whose first closing parenthesis precedes the opening one
    makes the slice expression of the prober panic. *)
Example snapshotPid_close_before_open :
  snapshotPid asciiOnly fsExample "8" (World 0 ∅) = Crash SliceBounds.
Proof. vm_compute. reflexivity. Qed.

(** A probe that succeeds with an empty command line changes nothing: the
    record an earlier probe of that id stored, if any, stays. *)
Example snapshotOne_kernel_thread_keeps_table :
  snapshotOne asciiOnly fsExample "2" (World 0 {[ "2" := initRecord ]})
  = Ret (tt, World 3 {[ "2" := initRecord ]}).
Proof. vm_compute. reflexivity. Qed.

(** Values at the edge of [int]. *)
Example Atoi_edges :
  Atoi "9223372036854775807" = (maxInt, None) /\
  Atoi "9223372036854775808" = (maxInt, Some ErrRange) /\
  Atoi "-9223372036854775808" = (minInt, None) /\
  Atoi "-9223372036854775809" = (minInt, Some ErrRange) /\
  Atoi "12x" = (0, Some ErrSyntax) /\
  Atoi "" = (0, Some ErrSyntax).
Proof. repeat split; vm_compute; reflexivity. Qed.

(* ===================================================================== *)
(** ** Instances of the further properties *)

Lemma wellFormed_sameStart : wellFormed sameStart sameStartBlocks.
Proof.
  split; [left; vm_compute; reflexivity|].
  repeat constructor; vm_compute; reflexivity.
Defined.

Lemma getsmaps_last_block_per_start_witness :
  exists pm,
    getsmaps asciiOnly sameStart = Ret pm /\
    forall k,
      match lastBlockAt k sameStartBlocks with
      | Some b => exists m, pm !! k = Some m /\ forall n, geti m n = counter asciiOnly n b
      | None => pm !! k = None
      end.
Proof.
  exact (getsmaps_last_block_per_start asciiOnly sameStart sameStartBlocks
           wellFormed_sameStart).
Defined.

Lemma memsizes_counts_last_blocks_witness :
  wellFormed sameStart sameStartBlocks /\
  memsizes asciiOnly sameStart = Ret (16, 16, 16).
Proof.
  split; [exact wellFormed_sameStart|].
  exact (proj1 (memsizes_counts_last_blocks asciiOnly sameStart sameStartBlocks
                  wellFormed_sameStart)).
Defined.

Lemma scanLine_numeric_value_witness :
  scanLine asciiOnly "Rss:   4 kB" ({[ "08048000" := ∅ ]}, "08048000")
  = Ret (<["08048000" := <["rss" := 4]> ∅]> {[ "08048000" := ∅ ]}, "08048000").
Proof.
  refine (proj1 (scanLine_numeric_value asciiOnly "Rss:   4 kB"
                   {[ "08048000" := ∅ ]} "08048000" ∅ _ _ _));
    vm_compute; reflexivity.
Defined.

Lemma Atoi_Itoa_witness :
  in_int (-1048576) /\ Atoi (Itoa (-1048576)) = (-1048576, None).
Proof.
  assert (H : in_int (-1048576)) by (vm_compute; split; discriminate).
  split; [exact H | exact (Atoi_Itoa (-1048576) H)].
Defined.

Lemma getsmaps_catAndHeap :
  getsmaps asciiOnly catAndHeap
  = Ret (<["0804a000" :=
             {[ "rss" := 12; "pss" := 12; "private_clean" := 0; "private_dirty" := 12 ]}]>
           {[ "08048000" :=
                {[ "rss" := 4; "pss" := 2; "private_clean" := 0; "private_dirty" := 4 ]} ]}).
Proof. vm_compute. reflexivity. Defined.

Lemma getsmaps_keys_without_dash_witness : contains "0804a000" "-" = false.
Proof.
  refine (getsmaps_keys_without_dash asciiOnly catAndHeap _ "0804a000"
            getsmaps_catAndHeap _).
  vm_compute. by eexists.
Defined.

Lemma getsmaps_counter_names_witness : normalLabel "private_dirty" = true.
Proof.
  refine (getsmaps_counter_names asciiOnly catAndHeap _ "0804a000"
            {[ "rss" := 12; "pss" := 12; "private_clean" := 0; "private_dirty" := 12 ]}
            "private_dirty" _ getsmaps_catAndHeap _ _).
  - vm_compute. reflexivity.
  - vm_compute. reflexivity.
  - vm_compute. by eexists.
Defined.

Lemma snapshotPid_error_is_read_failure_witness :
  (readAt fsExample 0 (procPath "9" "cmdline") = inr ErrPermission /\
   World 2 ∅ = World 1 ∅) \/
  ((exists cmd, readAt fsExample 0 (procPath "9" "cmdline") = inl cmd) /\
   readAt fsExample 1 (procPath "9" "smaps") = inr ErrPermission /\
   World 2 ∅ = World 2 ∅) \/
  ((exists cmd, readAt fsExample 0 (procPath "9" "cmdline") = inl cmd) /\
   (exists sm, readAt fsExample 1 (procPath "9" "smaps") = inl sm) /\
   readAt fsExample 2 (procPath "9" "stat") = inr ErrPermission /\
   World 2 ∅ = World 3 ∅).
Proof.
  apply (snapshotPid_error_is_read_failure asciiOnly fsExample "9" (World 0 ∅)
           ErrPermission (World 2 ∅)).
  vm_compute. reflexivity.
Defined.

Lemma snapshotPid_status_line_witness :
  snapshotPid asciiOnly fsExample "8" (World 0 ∅) = Crash SliceBounds.
Proof.
  refine (proj1 (snapshotPid_status_line asciiOnly fsExample "8" (World 0 ∅)
                   "x" "" "8 )x( S 1 8 8" _ _ _) _);
    vm_compute; reflexivity.
Defined.

Lemma reachable_names_without_close_witness : contains (Name shRecord) ")" = false.
Proof.
  refine (reachable_names_without_close asciiOnly fsExample (World 9 twoRecords)
            "7" shRecord reachable_after_one_cycle _).
  vm_compute. reflexivity.
Defined.

Lemma snapshotOne_probe_success_witness :
  exists w',
    snapshotOne asciiOnly fsExample "1" staleWorld = Ret (tt, w') /\
    allpids w' = <["1" := initRecord]> (allpids staleWorld) /\
    allpids w' !! "1" = Some initRecord /\
    (forall pid', pid' <> "1" -> allpids w' !! pid' = allpids staleWorld !! pid').
Proof.
  refine (snapshotOne_probe_success asciiOnly fsExample "1" staleWorld initRecord
            (World 3 (allpids staleWorld)) _ _).
  - vm_compute. reflexivity.
  - discriminate.
Defined.

Lemma snapshotPids_staleWorld :
  snapshotPids asciiOnly fsExample ["1"; "404"] staleWorld
  = Ret (tt, World 4 (<["1" := initRecord]> {[ "9" := Piddata "sshd" "sshd" 8 8 8 ]})).
Proof. vm_compute. reflexivity. Defined.

Lemma snapshotPids_frame_witness :
  allpids (World 4 (<["1" := initRecord]> {[ "9" := Piddata "sshd" "sshd" 8 8 8 ]})) !! "9"
  = allpids staleWorld !! "9".
Proof.
  refine (proj1 (snapshotPids_frame asciiOnly fsExample ["1"; "404"] staleWorld _
                   snapshotPids_staleWorld) "9" _).
  intros H. repeat (apply elem_of_cons in H as [H|H]; [discriminate|]).
  by apply elem_of_nil in H.
Defined.

Lemma snapshotPids_reads_witness :
  (clock staleWorld + length ["1"; "404"] <= 4 <= clock staleWorld + 3 * length ["1"; "404"])%nat.
Proof.
  exact (snapshotPids_reads asciiOnly fsExample ["1"; "404"] staleWorld _
           snapshotPids_staleWorld).
Defined.

Lemma stable_fsExample : stable fsExample.
Proof. intros n m path. reflexivity. Defined.

Lemma snapshotPids_second_cycle_witness :
  exists w2,
    snapshotPids asciiOnly fsExample ["1"; "404"]
      (World 4 (<["1" := initRecord]> {[ "9" := Piddata "sshd" "sshd" 8 8 8 ]}))
    = Ret (tt, w2) /\
    allpids w2
    = allpids (World 4 (<["1" := initRecord]> {[ "9" := Piddata "sshd" "sshd" 8 8 8 ]})).
Proof.
  exact (snapshotPids_second_cycle asciiOnly fsExample ["1"; "404"] staleWorld _
           stable_fsExample snapshotPids_staleWorld).
Defined.

Lemma makeCSV_any_visit_witness :
  makeCSV twoRecords [("1", initRecord); ("7", shRecord); ("9", initRecord)]
  = Crash IndexOutOfRange.
Proof.
  refine (proj2 (makeCSV_any_visit twoRecords
                   [("1", initRecord); ("7", shRecord); ("9", initRecord)]) _).
  vm_compute. lia.
Defined.

Lemma exports_agree_witness :
  exists d,
    makeCSV (allpids (World 9 twoRecords)) (map_to_list twoRecords) = Ret d /\
    (forall pid,
       is_Some (Pids (makeJSON "03:04:05" (allpids (World 9 twoRecords))) !! pid) <->
       exists row, row ∈ d /\ row !! 0%nat = Some pid) /\
    (forall row,
       row ∈ d ->
       exists pid pd r u p,
         Pids (makeJSON "03:04:05" (allpids (World 9 twoRecords))) !! pid = Some pd /\
         row = [pid; Name pd; r; u; p] /\
         Atoi r = (RSS pd, None) /\ Atoi u = (USS pd, None) /\ Atoi p = (PSS pd, None)).
Proof.
  refine (exports_agree asciiOnly fsExample (World 9 twoRecords) "03:04:05"
            (map_to_list twoRecords) reachable_after_one_cycle _).
  unfold visits. reflexivity.
Defined.

Lemma snapshotAll_keeps_digit_names_witness :
  snapshotAll dirExample (World 0 ∅) = Ret (Some ["1"; "2"; "7"; "1abc"], World 0 ∅).
Proof.
  refine (proj1 (snapshotAll_keeps_digit_names dirExample (World 0 ∅))
            ["1"; "self"; "2"; "cpuinfo"; "7"; "1abc"] eq_refl _).
  repeat constructor; discriminate.
Defined.

Lemma cycles_two_rounds :
  cycles asciiOnly fsExample 2 dirExample false map_to_list ["1"; "404"] (World 0 ∅)
  = Ret (Some "", World 8 {[ "1" := initRecord ]}).
Proof. vm_compute. reflexivity. Defined.

Lemma cycles_with_given_ids_witness :
  Some "" <> None /\
  (forall k, is_Some (allpids (World 8 {[ "1" := initRecord ]}) !! k) -> k ∈ ["1"; "404"]) /\
  (forall dir',
     cycles asciiOnly fsExample 2 dir' false map_to_list ["1"; "404"] (World 0 ∅)
     = Ret (Some "", World 8 {[ "1" := initRecord ]})).
Proof.
  refine (cycles_with_given_ids asciiOnly fsExample 2 dirExample false map_to_list
            ["1"; "404"] (Some "") (World 8 {[ "1" := initRecord ]}) _ cycles_two_rounds).
  discriminate.
Defined.
